(** * haiku/pkg/templator: the resource walk, the flattener and the path resolver

    A shallow embedding of [pkg/templator/jsonnet.go]: [jsonWalk],
    [FlattenToV1], [jsonTok8sObjs], [getJPathsAndFile] and the loop of the
    [parseYaml] native function, followed by the properties the
    specification states about them. *)

From Stdlib Require Import SpecFloat.
From stdpp Require Import base option list strings.

Open Scope string_scope.
Open Scope list_scope.
#[local] Set Warnings "-register-all".

(** ** Go errors *)

(** The errno values a failing [os.Stat] or [os.Getwd] can carry. *)
Inductive Errno : Type := ENOENT | EACCES | ENOTDIR | EIO | ELOOP.

(** Go [error] values that reach this package.  [errorString] is what
    [errors.New] and [fmt.Errorf] build, [PathError] and [SyscallError] are
    the [os] package's wrappers, [os_ErrNotExist] and [io_EOF] are the
    sentinels [os.ErrNotExist] and [io.EOF], and [LibError] stands for an
    error made by a library decoder. *)
Inductive error : Type :=
| errorString (msg : string)
| os_ErrNotExist
| PathError (op path : string) (errno : Errno)
| SyscallError (call : string) (errno : Errno)
| io_EOF
| LibError (msg : string).

(** A Go [(T, error)] return: exactly one side is meaningful. *)
Inductive result (A : Type) : Type :=
| Ok (a : A)
| Err (e : error).
Arguments Ok {A} a.
Arguments Err {A} e.

Definition is_Ok {A} (r : result A) : bool :=
  match r with Ok _ => true | Err _ => false end.

(** ** Decoded JSON values *)

(** What [json.Unmarshal] stores into an [interface{}]: [nil], [bool],
    [float64], [string], [[]interface{}] and [map[string]interface{}].

    A Go map has no order of its own, and [range] over it visits the entries
    in an order the language leaves open.  [VMap] therefore carries the
    entries of the map in the order in which the (single) [range] over it
    visits them; a statement quantified over all values holds for every
    such order. *)
Inductive Value : Type :=
| VNil
| VBool (b : bool)
| VFloat64 (f : spec_float)
| VString (s : string)
| VSlice (l : list Value)
| VMap (o : list (string * Value)).

(** [o[key]]: the value stored under [key], and [nil] (the zero value of
    [interface{}]) when the key is absent. *)
Fixpoint index (o : list (string * Value)) (key : string) : Value :=
  match o with
  | [] => VNil
  | (k, v) :: rest => if String.eqb k key then v else index rest key
  end.

(** [v != nil] *)
Definition notNil (v : Value) : bool :=
  match v with VNil => false | _ => true end.

(** [%T] of a scalar held in an [interface{}]. *)
Definition typeName (v : Value) : string :=
  match v with
  | VNil => "<nil>"
  | VBool _ => "bool"
  | VFloat64 _ => "float64"
  | VString _ => "string"
  | VSlice _ => "[]interface {}"
  | VMap _ => "map[string]interface {}"
  end.

(** [fmt.Errorf("Unexpected object structure: %T", o)] *)
Definition unexpectedStructure (v : Value) : error :=
  errorString ("Unexpected object structure: " +:+ typeName v).

(** The guard of [jsonWalk]'s map case:
    [o["kind"] != nil && o["apiVersion"] != nil]. *)
Definition hasKindAndAPIVersion (o : list (string * Value)) : bool :=
  notNil (index o "kind") && notNil (index o "apiVersion").

(** [jsonWalk], with its two [range] loops as local fixpoints over the
    remaining entries and the accumulator [ret]. *)
Fixpoint jsonWalk (obj : Value) : result (list Value) :=
  match obj with
  | VMap o =>
      if hasKindAndAPIVersion o then Ok [VMap o]
      else
        (fix range (kvs : list (string * Value)) (ret : list Value)
           : result (list Value) :=
           match kvs with
           | [] => Ok ret
           | kv :: rest =>
               match jsonWalk (snd kv) with
               | Err e => Err e
               | Ok children => range rest (ret ++ children)
               end
           end) o []
  | VSlice l =>
      (fix range (vs : list Value) (ret : list Value)
         : result (list Value) :=
         match vs with
         | [] => Ok ret
         | v :: rest =>
             match jsonWalk v with
             | Err e => Err e
             | Ok children => range rest (ret ++ children)
             end
         end) l []
  | _ => Err (unexpectedStructure obj)
  end.

(** The same two loops, named, for stating facts about them. *)
Fixpoint rangeWalk (vs : list Value) (ret : list Value) : result (list Value) :=
  match vs with
  | [] => Ok ret
  | v :: rest =>
      match jsonWalk v with
      | Err e => Err e
      | Ok children => rangeWalk rest (ret ++ children)
      end
  end.

(** The calls of [jsonWalk] that one call makes, itself first, in the order
    they are made; a loop stops calling at the first child that fails. *)
Fixpoint jsonWalkCalls (obj : Value) : list Value :=
  match obj with
  | VMap o =>
      if hasKindAndAPIVersion o then [obj]
      else
        obj :: (fix range (kvs : list (string * Value)) : list Value :=
           match kvs with
           | [] => []
           | kv :: rest =>
               jsonWalkCalls (snd kv) ++
               (if is_Ok (jsonWalk (snd kv)) then range rest else [])
           end) o
  | VSlice l =>
      obj :: (fix range (vs : list Value) : list Value :=
         match vs with
         | [] => []
         | v :: rest =>
             jsonWalkCalls v ++
             (if is_Ok (jsonWalk v) then range rest else [])
         end) l
  | _ => [obj]
  end.

(** ** Objects of [k8s.io/apimachinery] and Go pointers *)

(** [unstructured.Unstructured]: one field, the map [Object]. *)
Record Unstructured : Type := { Object : list (string * Value) }.

(** [unstructured.UnstructuredList]: the list's own map and [Items], a slice
    of [Unstructured] structs (not of pointers). *)
Record UnstructuredList : Type :=
  { ListObject : list (string * Value); Items : list Unstructured }.

(** The store of [Unstructured] variables whose address is taken; a pointer
    [*unstructured.Unstructured] is an index into it. *)
Abbreviation ptr := nat (only parsing).
Abbreviation heap := (list Unstructured) (only parsing).

(** The zero value of the struct: a nil [Object] map. *)
Definition zeroUnstructured : Unstructured := {| Object := [] |}.

Definition load (h : heap) (p : ptr) : Unstructured :=
  default zeroUnstructured (h !! p).

Definition deref (h : heap) (ps : list ptr) : list Unstructured :=
  load h <$> ps.

(** A [runtime.Object] as [FlattenToV1]'s type switch sees it.  An
    [*UnstructuredList] is only read, so it is carried by value. *)
Inductive runtime_Object : Type :=
| PtrUnstructured (o : ptr)
| PtrUnstructuredList (o : UnstructuredList)
| OtherObject (goType : string).

(** The inner loop of [FlattenToV1],
    [for _, item := range o.Items { ret = append(ret, &item) }].
    Before Go 1.22 (this code has no module file asking for it) the range
    clause declares ONE variable [item] for the whole statement; every
    iteration assigns the next element to it, and [&item] is the same
    address each time. *)
Fixpoint rangeItems (item : ptr) (items : list Unstructured)
    (ret : list ptr) (h : heap) : list ptr * heap :=
  match items with
  | [] => (ret, h)
  | elem :: rest => rangeItems item rest (ret ++ [item]) (<[item := elem]> h)
  end.

(** The outer loop of [FlattenToV1]; [None] is the [panic] of the default
    case.  Each execution of the inner [for] statement gets a fresh [item]
    variable, allocated at the end of the store. *)
Fixpoint rangeObjs (objs : list runtime_Object) (ret : list ptr) (h : heap)
    : option (list ptr * heap) :=
  match objs with
  | [] => Some (ret, h)
  | obj :: rest =>
      match obj with
      | PtrUnstructuredList o =>
          let item := length h in
          let '(ret', h') := rangeItems item (Items o) ret (h ++ [zeroUnstructured]) in
          rangeObjs rest ret' h'
      | PtrUnstructured o => rangeObjs rest (ret ++ [o]) h
      | OtherObject _ => None
      end
  end.

Definition FlattenToV1 (objs : list runtime_Object) (h : heap)
    : option (list ptr * heap) :=
  rangeObjs objs [] h.

(** The flattener in the words of the spec (section 4.4) and of the
    function's own comment, on values: a list-wrapper is replaced by its
    items in their order, any other item is kept as itself. *)
Definition members (h : heap) (obj : runtime_Object) : list Unstructured :=
  match obj with
  | PtrUnstructuredList o => Items o
  | PtrUnstructured o => [load h o]
  | OtherObject _ => []
  end.

Definition expandLists (h : heap) (objs : list runtime_Object) : list Unstructured :=
  concat (members h <$> objs).

Definition isKnown (obj : runtime_Object) : bool :=
  match obj with OtherObject _ => false | _ => true end.

(** ** From extraction to flattening: [jsonTok8sObjs] *)

Inductive Decoded : Type :=
| DUnstructured (u : Unstructured)
| DUnstructuredList (l : UnstructuredList).

Definition asUnstructured (v : Value) : option Unstructured :=
  match v with
  | VMap o => Some {| Object := o |}
  | _ => None
  end.

(** Modelled from the spec: the coercion between extraction and flattening,
    [json.Marshal] followed by [unstructured.UnstructuredJSONScheme.Decode],
    which is code of [k8s.io/apimachinery] and not part of [src/].  The spec
    (section 3, Glossary) describes a list-wrapper as a resource descriptor
    that contains a collection of further descriptors under its [items]
    field, and every other descriptor as a plain object.  So a mapping whose
    [items] is a sequence of mappings becomes a list with those members, any
    other mapping becomes a plain object, and the rest does not decode. *)
Definition Decode (v : Value) : result Decoded :=
  match v with
  | VMap o =>
      match index o "items" with
      | VSlice l =>
          match mapM asUnstructured l with
          | Some items => Ok (DUnstructuredList {| ListObject := o; Items := items |})
          | None => Err (LibError "json: cannot unmarshal list item into an object")
          end
      | _ => Ok (DUnstructured {| Object := o |})
      end
  | _ => Err (LibError "json: cannot unmarshal into an object")
  end.

(** The shape by which [Decode] recognises a list-wrapper. *)
Definition isListWrapper (u : Unstructured) : bool :=
  match index (Object u) "items" with
  | VSlice _ => true
  | _ => false
  end.

(** The loop of [jsonTok8sObjs] that decodes every extracted value and
    appends the resulting object to [ret]; a decoded plain object is a new
    heap cell. *)
Fixpoint decodeAll (objs : list Value) (ret : list runtime_Object) (h : heap)
    : result (list runtime_Object * heap) :=
  match objs with
  | [] => Ok (ret, h)
  | v :: rest =>
      match Decode v with
      | Err e => Err e
      | Ok (DUnstructured u) =>
          decodeAll rest (ret ++ [PtrUnstructured (length h)]) (h ++ [u])
      | Ok (DUnstructuredList l) =>
          decodeAll rest (ret ++ [PtrUnstructuredList l]) h
      end
  end.

(** [jsonTok8sObjs] from the decoded document [top] on ([json.Unmarshal] of
    the text is the library's).  [None] is a panic; the result is the slice
    of pointers together with the store they point into. *)
Definition jsonTok8sObjs (top : Value) : option (result (list ptr * heap)) :=
  match jsonWalk top with
  | Err e => Some (Err e)
  | Ok objs =>
      match decodeAll objs [] [] with
      | Err e => Some (Err e)
      | Ok (ret, h) =>
          match FlattenToV1 ret h with
          | Some out => Some (Ok out)
          | None => None
          end
      end
  end.

(** The records a caller reads through the returned pointers. *)
Definition outputOf (top : Value) : option (list Unstructured) :=
  match jsonTok8sObjs top with
  | Some (Ok (ps, h)) => Some (deref h ps)
  | _ => None
  end.

(** ** [path/filepath] on a Unix system *)

(** The separator, [filepath.Separator]. *)
Definition slash : Ascii.ascii := Ascii.Ascii true true true true false true false false.

(** [strings.Split(s, "/")] *)
Fixpoint splitSlash (s : string) : list string :=
  match s with
  | EmptyString => [""]
  | String c rest =>
      if Ascii.eqb c slash then "" :: splitSlash rest
      else match splitSlash rest with
           | [] => [String c ""]
           | x :: xs => String c x :: xs
           end
  end.

Definition isRooted (s : string) : bool :=
  match s with
  | String c _ => Ascii.eqb c slash
  | EmptyString => false
  end.

(** The element loop of [filepath.Clean]: [out] is the stack of elements
    kept so far, innermost first.  Empty and [.] elements are dropped; [..]
    removes the last kept element when there is one that is not itself
    [..], is kept on a relative path otherwise and is dropped at the root. *)
Fixpoint cleanElems (rooted : bool) (elems out : list string) : list string :=
  match elems with
  | [] => rev out
  | e :: rest =>
      if String.eqb e "" || String.eqb e "." then cleanElems rooted rest out
      else if String.eqb e ".." then
        match out with
        | top :: out' =>
            if String.eqb top ".." then cleanElems rooted rest (".." :: out)
            else cleanElems rooted rest out'
        | [] =>
            if rooted then cleanElems rooted rest []
            else cleanElems rooted rest [".."]
        end
      else cleanElems rooted rest (e :: out)
  end.

(** [filepath.Clean] *)
Definition Clean (path : string) : string :=
  if String.eqb path "" then "."
  else
    let body := String.concat "/" (cleanElems (isRooted path) (splitSlash path) []) in
    if isRooted path then "/" +:+ body
    else if String.eqb body "" then "." else body.

(** [filepath.Join]: leading empty elements are ignored, the rest is joined
    with the separator and cleaned; no non-empty element gives [""]. *)
Fixpoint Join (elem : list string) : string :=
  match elem with
  | [] => ""
  | e :: rest =>
      if String.eqb e "" then Join rest
      else Clean (String.concat "/" elem)
  end.

(** ** The operating system as [getJPathsAndFile] sees it *)

(** The working directory that [os.Getwd] reports (or its error) and what
    [os.Stat] answers for each name: [None] is a nil error, the file is
    there. *)
Record OS : Type :=
  { wd : result string;
    stat : string → option error }.

Inductive Call : Type :=
| CallGetwd
| CallStat (name : string).

(** A computation that reads the operating system and records the calls it
    makes, in order. *)
Definition IO (A : Type) : Type := OS → A * list Call.

Definition ioRet {A} (a : A) : IO A := λ _, (a, []).

Definition ioBind {A B} (m : IO A) (k : A → IO B) : IO B :=
  λ os, let '(a, t1) := m os in
        let '(b, t2) := k a os in
        (b, t1 ++ t2).

Notation "x ←ᵢ m ; k" := (ioBind m (λ x, k))
  (at level 200, m at level 100, k at level 200, right associativity).

Definition os_Getwd : IO (result string) := λ os, (wd os, [CallGetwd]).

Definition os_Stat (name : string) : IO (option error) :=
  λ os, (stat os name, [CallStat name]).

(** [os.IsNotExist]: true for [ENOENT], bare or wrapped, and for
    [os.ErrNotExist]; false for every other error and for [nil]. *)
Definition os_IsNotExist (err : option error) : bool :=
  match err with
  | Some os_ErrNotExist => true
  | Some (PathError _ _ ENOENT) => true
  | Some (SyscallError _ ENOENT) => true
  | _ => false
  end.

Definition errorMainNotFound : error :=
  errorString "couldn't find either main.jsonnet or main.libsonnet".

Definition getJPathsAndFile (path : string) : IO (result (list string * string)) :=
  pwd ←ᵢ os_Getwd;
  match pwd with
  | Err err => ioRet (Err err)
  | Ok pwd =>
      let japths :=
        [] ++ [Join [pwd; "lib"]; Join [pwd; "vendor"]; Join [path; ".metadata"]] in
      let path := Join ["environments"; path] in
      let file := Join [path; "main.libsonnet"] in
      err ←ᵢ os_Stat file;
      if negb (os_IsNotExist err) then ioRet (Ok (japths, file))
      else
        let file := Join [path; "main.jsonnet"] in
        err ←ᵢ os_Stat file;
        if negb (os_IsNotExist err) then ioRet (Ok (japths, file))
        else ioRet (Err errorMainNotFound)
  end.

(** What the resolver returns, and the calls it made to get there. *)
Definition resolve (os : OS) (name : string) : result (list string * string) :=
  fst (getJPathsAndFile name os).

Definition resolveCalls (os : OS) (name : string) : list Call :=
  snd (getJPathsAndFile name os).

(** ** The [parseYaml] native function *)

(** A [YAMLToJSONDecoder] over an in-memory reader, seen from its caller:
    the results that its successive [Decode] calls still have to give, a
    document or an error each; once they are used up [Decode] answers
    [io.EOF].  Splitting the text at document markers and reading YAML are
    the library's work. *)
Definition YAMLToJSONDecoder : Type := list (result Value).

(** The [for] loop of [parseYaml]: one [Decode] per iteration. *)
Fixpoint parseYamlLoop (d : YAMLToJSONDecoder) (ret : list Value)
    : result (list Value) :=
  match d with
  | [] => Ok ret
  | Err err :: d' =>
      match err with
      | io_EOF => Ok ret
      | _ => Err err
      end
  | Ok doc :: d' => parseYamlLoop d' (ret ++ [doc])
  end.

Section ParseYaml.

(** [yaml.NewYAMLToJSONDecoder(bytes.NewReader(data))] *)
Variable NewYAMLToJSONDecoder : string → YAMLToJSONDecoder.

Definition parseYaml (data : string) : result (list Value) :=
  parseYamlLoop (NewYAMLToJSONDecoder data) [].

End ParseYaml.

(** ** Vocabulary of the statements *)

(** The calls one of [jsonWalk]'s loops makes over the children [vs]. *)
Fixpoint rangeCalls (vs : list Value) : list Value :=
  match vs with
  | [] => []
  | v :: rest =>
      jsonWalkCalls v ++ (if is_Ok (jsonWalk v) then rangeCalls rest else [])
  end.

(** A bare scalar or [nil]: the values of [jsonWalk]'s default case. *)
Definition isScalar (v : Value) : bool :=
  match v with
  | VSlice _ | VMap _ => false
  | _ => true
  end.

(** A resource descriptor: a mapping that passes the guard. *)
Definition isDescriptor (v : Value) : bool :=
  match v with
  | VMap o => hasKindAndAPIVersion o
  | _ => false
  end.

(** The values [jsonWalk] loops over: the values of a mapping that is not a
    descriptor, in the order of the iteration, and the elements of a
    sequence. *)
Definition childrenOf (v : Value) : option (list Value) :=
  match v with
  | VMap o => if hasKindAndAPIVersion o then None else Some (snd <$> o)
  | VSlice l => Some l
  | _ => None
  end.

Definition descriptor (kind apiVersion : string) : list (string * Value) :=
  [("kind", VString kind); ("apiVersion", VString apiVersion)].

(** What a caller reads through the pointers that [FlattenToV1] appends for
    one object: a plain object gives itself; a list gives, for each of its
    items, the one loop variable, which holds the last item once the loop is
    over. *)
Definition flattened (h : heap) (obj : runtime_Object) : list Unstructured :=
  match obj with
  | PtrUnstructuredList o =>
      replicate (length (Items o)) (default zeroUnstructured (last (Items o)))
  | PtrUnstructured o => [load h o]
  | OtherObject _ => []
  end.

(** A pointer held by [obj] points into [h]. *)
Definition validIn (h : heap) (obj : runtime_Object) : Prop :=
  match obj with
  | PtrUnstructured o => o < length h
  | _ => True
  end.

Definition pod (name : string) : Unstructured :=
  {| Object := descriptor "Pod" "v1" ++ [("metadata", VMap [("name", VString name)])] |}.

Definition listOf (items : list Unstructured) : UnstructuredList :=
  {| ListObject := descriptor "List" "v1"; Items := items |}.

(** How the element [obj] that [decodeAll] appended relates to the
    extracted value [v] it was decoded from, in the store [h]. *)
Definition decodedAs (h : heap) (v : Value) (obj : runtime_Object) : Prop :=
  match obj with
  | PtrUnstructured p =>
      ∃ o, v = VMap o ∧ Decode v = Ok (DUnstructured {| Object := o |})
           ∧ h !! p = Some {| Object := o |}
  | PtrUnstructuredList l => Decode v = Ok (DUnstructuredList l)
  | OtherObject _ => False
  end.

(** The two halves of the invariant that the spec states for the output of
    the pipeline. *)
Definition everyOutputHasKindAndAPIVersion : Prop :=
  ∀ top out, outputOf top = Some out →
    Forall (λ u, hasKindAndAPIVersion (Object u) = true) out.

Definition noOutputIsListWrapper : Prop :=
  ∀ top out, outputOf top = Some out →
    Forall (λ u, isListWrapper u = false) out.

(** A path element that [filepath.Clean] keeps as it is. *)
Definition plainElem (e : string) : bool :=
  negb (String.eqb e "" || String.eqb e "." || String.eqb e "..").

(** A relative path made of such elements only, like
    [jaeger/ops-tools1-us-east4.jaeger]. *)
Definition isPlain (path : string) : bool :=
  forallb plainElem (splitSlash path).

(** The slice [japths] that [getJPathsAndFile] builds. *)
Definition japthsOf (pwd path : string) : list string :=
  [Join [pwd; "lib"]; Join [pwd; "vendor"]; Join [path; ".metadata"]].

(** The entry file candidate [file] of the environment [path]. *)
Definition candidate (path file : string) : string :=
  Join [Join ["environments"; path]; file].

(** The [Error()] text of an error made in this package. *)
Definition errorText (err : error) : string :=
  match err with
  | errorString msg => msg
  | _ => ""
  end.

(** [strings.Contains(s, sub)] *)
Definition mentions (sub s : string) : bool :=
  match String.index 0 sub s with
  | Some _ => true
  | None => false
  end.

(** [filepath.Abs] in the working directory [pwd]: where the operating
    system looks for [path]. *)
Definition Abs (pwd path : string) : string :=
  if isRooted path then Clean path else Join [pwd; path].

(** C5 read literally: the three returned roots are [lib], [vendor] and
    [<name>/.metadata], each joined onto the working directory. *)
Definition rootsJoinedToWd : Prop :=
  ∀ os name pwd paths file,
    wd os = Ok pwd →
    resolve os name = Ok (paths, file) →
    paths = [Join [pwd; "lib"]; Join [pwd; "vendor"]; Join [pwd; name; ".metadata"]].

(** C5 read by what the returned roots denote once the operating system
    resolves them in the working directory. *)
Definition rootsDenoteBelowWd : Prop :=
  ∀ os name pwd paths file,
    wd os = Ok pwd →
    resolve os name = Ok (paths, file) →
    Abs pwd <$> paths
      = [Join [pwd; "lib"]; Join [pwd; "vendor"]; Join [pwd; name; ".metadata"]].

(** A file system with working directory [/w] in which exactly the files
    [present] exist and every other name gives [ENOENT]. *)
Definition osWith (present : list string) : OS :=
  {| wd := Ok "/w";
     stat := λ name,
       if bool_decide (name ∈ present) then None
       else Some (PathError "stat" name ENOENT) |}.

(** The same, with [denied] answering [EACCES]. *)
Definition osDenying (denied : string) (present : list string) : OS :=
  {| wd := Ok "/w";
     stat := λ name,
       if String.eqb name denied then Some (PathError "stat" name EACCES)
       else if bool_decide (name ∈ present) then None
       else Some (PathError "stat" name ENOENT) |}.

(** The text ["a: 1\n---\nb: 2\n"] and the two documents it holds. *)
Definition newline : string := String (Ascii.ascii_of_nat 10) "".

Definition twoDocuments : string :=
  "a: 1" +:+ newline +:+ "---" +:+ newline +:+ "b: 2" +:+ newline.

Definition float64_1 : spec_float := S754_finite false 4503599627370496 (-52).
Definition float64_2 : spec_float := S754_finite false 4503599627370496 (-51).

Definition docA : Value := VMap [("a", VFloat64 float64_1)].
Definition docB : Value := VMap [("b", VFloat64 float64_2)].

(** A decoder constructor that knows the text [twoDocuments] and one
    malformed text, and finds no document in anything else. *)
Definition sampleDecoder (data : string) : YAMLToJSONDecoder :=
  if String.eqb data twoDocuments then [Ok docA; Ok docB]
  else if String.eqb data "a: [" then [Err (LibError "yaml: did not find expected node content")]
  else [].

(** The descriptors a successful walk of [v] returns, and nothing for a walk
    that fails. *)
Definition walked (v : Value) : list Value :=
  match jsonWalk v with
  | Ok objs => objs
  | Err _ => []
  end.

(** An [*UnstructuredList], the first case of [FlattenToV1]'s switch. *)
Definition isListObject (obj : runtime_Object) : bool :=
  match obj with
  | PtrUnstructuredList _ => true
  | _ => false
  end.

(** All items of a list object are one and the same record (true of a list
    with no item or a single one). *)
Definition itemsAgree (obj : runtime_Object) : Prop :=
  ∀ l, obj = PtrUnstructuredList l → ∀ x, x ∈ Items l → Some x = last (Items l).

(** The [Func] of the [parseYaml] native function: [dataString] holds the
    arguments the interpreter passes.  [None] is a panic, of the index
    expression [dataString[0]] or of the type assertion [.(string)]; the
    documents are returned as one [[]interface{}]. *)
Definition parseYamlFunc (NewYAMLToJSONDecoder : string → YAMLToJSONDecoder)
    (dataString : list Value) : option (result Value) :=
  match dataString with
  | [] => None
  | VString data :: _ =>
      Some (match parseYaml NewYAMLToJSONDecoder data with
            | Ok ret => Ok (VSlice ret)
            | Err err => Err err
            end)
  | _ :: _ => None
  end.

(** * Properties *)

(** ** The walk *)

Section WalkFacts.

Implicit Types (v : Value) (vs ret : list Value) (o : list (string * Value)).

(** Induction over values whose hypotheses reach into slices and maps. *)
Lemma Value_nested_ind (P : Value → Prop) :
  P VNil → (∀ b, P (VBool b)) → (∀ f, P (VFloat64 f)) → (∀ s, P (VString s)) →
  (∀ l, Forall P l → P (VSlice l)) →
  (∀ o, Forall (λ kv, P kv.2) o → P (VMap o)) →
  ∀ v, P v.
Proof.
  intros Hnil Hbool Hfloat Hstr Hslice Hmap.
  fix IH 1. intros [ | b | f | s | l | o ].
  - exact Hnil.
  - exact (Hbool b).
  - exact (Hfloat f).
  - exact (Hstr s).
  - apply Hslice. induction l as [ | x l IHl ]; constructor; [ apply IH | exact IHl ].
  - apply Hmap. induction o as [ | kv o IHo ]; constructor; [ apply IH | exact IHo ].
Qed.

Lemma jsonWalk_slice l : jsonWalk (VSlice l) = rangeWalk l [].
Proof.
  cbn. generalize (@nil Value).
  induction l as [ | x l IHl ]; intros ret; cbn; [ done | ].
  destruct (jsonWalk x); auto.
Qed.

Lemma jsonWalk_map o :
  jsonWalk (VMap o) =
    if hasKindAndAPIVersion o then Ok [VMap o] else rangeWalk (snd <$> o) [].
Proof.
  cbn. destruct (hasKindAndAPIVersion o); [ done | ].
  generalize (@nil Value).
  induction o as [ | kv o IHo ]; intros ret; cbn; [ done | ].
  destruct (jsonWalk kv.2); auto.
Qed.

(** When every child gives a result, the loop returns what was there
    followed by the children's results, in the order of the children. *)
Lemma rangeWalk_all_ok vs (rs : list (list Value)) ret :
  Forall2 (λ v r, jsonWalk v = Ok r) vs rs →
  rangeWalk vs ret = Ok (ret ++ concat rs).
Proof.
  intros H. revert ret.
  induction H as [ | v r vs rs Hv _ IH ]; intros ret; cbn.
  - by rewrite app_nil_r.
  - rewrite Hv, IH. by rewrite <- app_assoc.
Qed.

(** Conversely a loop that returns has called every child with success. *)
Lemma rangeWalk_ok_inv vs ret out :
  rangeWalk vs ret = Ok out →
  ∃ rs, Forall2 (λ v r, jsonWalk v = Ok r) vs rs ∧ out = ret ++ concat rs.
Proof.
  revert ret. induction vs as [ | v vs IH ]; intros ret; cbn.
  - intros [= <-]. exists []. split; [ constructor | by rewrite app_nil_r ].
  - destruct (jsonWalk v) as [ r | e ] eqn:Hv; [ | done ].
    intros (rs & Hrs & ->)%IH. exists (r :: rs). split.
    + by constructor.
    + cbn. by rewrite app_assoc.
Qed.

(** The first failing child ends the loop with its error. *)
Lemma rangeWalk_first_error vs1 v vs2 (rs : list (list Value)) ret e :
  Forall2 (λ v r, jsonWalk v = Ok r) vs1 rs →
  jsonWalk v = Err e →
  rangeWalk (vs1 ++ v :: vs2) ret = Err e.
Proof.
  intros H He. revert ret.
  induction H as [ | x r xs rs Hx _ IH ]; intros ret; cbn.
  - by rewrite He.
  - by rewrite Hx, IH.
Qed.

End WalkFacts.

Section WalkCalls.

Lemma jsonWalkCalls_slice l :
  jsonWalkCalls (VSlice l) = VSlice l :: rangeCalls l.
Proof. reflexivity. Qed.

Lemma jsonWalkCalls_map o :
  jsonWalkCalls (VMap o) =
    if hasKindAndAPIVersion o then [VMap o]
    else VMap o :: rangeCalls (snd <$> o).
Proof.
  cbn. destruct (hasKindAndAPIVersion o); [ done | ]. f_equal.
  induction o as [ | kv o IHo ]; cbn; [ done | ].
  by rewrite <- IHo.
Qed.

(** A loop whose children all succeed calls [jsonWalk] on each of them. *)
Lemma rangeCalls_all_ok (vs : list Value) (rs : list (list Value)) :
  Forall2 (λ v r, jsonWalk v = Ok r) vs rs →
  rangeCalls vs = concat (jsonWalkCalls <$> vs).
Proof.
  induction 1 as [ | v r vs rs Hv _ IH ]; cbn; [ done | ].
  by rewrite Hv, IH.
Qed.

(** A failing child is the last one the loop calls. *)
Lemma rangeCalls_stop (v : Value) (rest : list Value) e :
  jsonWalk v = Err e → rangeCalls (v :: rest) = jsonWalkCalls v.
Proof. intros He. cbn. rewrite He. cbn. by rewrite app_nil_r. Qed.

End WalkCalls.

(** C2. A mapping whose [kind] and [apiVersion] are both present and not
    null is returned as the only element of the result, and the walk makes
    no call besides the one on the mapping itself: its children are not
    visited. *)
Theorem jsonWalk_descriptor_is_leaf (o : list (string * Value)) :
  index o "kind" ≠ VNil →
  index o "apiVersion" ≠ VNil →
  jsonWalk (VMap o) = Ok [VMap o] ∧ jsonWalkCalls (VMap o) = [VMap o].
Proof.
  intros Hkind Hapi.
  assert (hasKindAndAPIVersion o = true) as Hguard.
  { unfold hasKindAndAPIVersion.
    destruct (index o "kind"), (index o "apiVersion"); done. }
  rewrite jsonWalk_map, jsonWalkCalls_map, Hguard. done.
Qed.

(** The spec's example: the outer Pod is the single result although its
    [spec] is itself shaped like a descriptor. *)
Lemma jsonWalk_descriptor_is_leaf_witness :
  let inner := VMap (descriptor "X" "Y") in
  let outer := VMap (descriptor "Pod" "v1" ++ [("spec", inner)]) in
  jsonWalk outer = Ok [outer] ∧ jsonWalkCalls outer = [outer].
Proof.
  apply (jsonWalk_descriptor_is_leaf
           (descriptor "Pod" "v1" ++ [("spec", VMap (descriptor "X" "Y"))]));
    simpl; discriminate.
Defined.

(** C3. On a value that is neither a mapping nor a sequence the walk fails,
    and the error names the Go type of the value. *)
Theorem jsonWalk_scalar_fails (v : Value) :
  isScalar v = true →
  jsonWalk v = Err (errorString ("Unexpected object structure: " +:+ typeName v))
  ∧ jsonWalkCalls v = [v].
Proof. destruct v; done. Qed.

Lemma jsonWalk_scalar_fails_witness :
  isScalar (VString "just a string") = true ∧
  jsonWalk (VString "just a string")
    = Err (errorString "Unexpected object structure: string").
Proof.
  split; [ reflexivity | ].
  apply (jsonWalk_scalar_fails (VString "just a string")). reflexivity.
Defined.

(** A scalar below a mapping that is not a descriptor fails the whole walk. *)
Lemma jsonWalk_nested_scalar_fails :
  jsonWalk (VMap [("replicas", VFloat64 (S754_zero false))])
    = Err (errorString "Unexpected object structure: float64").
Proof. reflexivity. Qed.

(** C6. For a mapping that is not a descriptor and for a sequence, the walk
    calls itself on every child, in the order of the iteration, and returns
    the children's results concatenated in that order. *)
Theorem jsonWalk_concatenates_children
    (v : Value) (children : list Value) (rs : list (list Value)) :
  childrenOf v = Some children →
  Forall2 (λ c r, jsonWalk c = Ok r) children rs →
  jsonWalk v = Ok (concat rs)
  ∧ jsonWalkCalls v = v :: concat (jsonWalkCalls <$> children).
Proof.
  intros Hchildren Hrs.
  destruct v as [ | | | | l | o ]; try discriminate Hchildren.
  - injection Hchildren as ->.
    rewrite jsonWalk_slice, jsonWalkCalls_slice.
    rewrite (rangeWalk_all_ok _ rs), (rangeCalls_all_ok _ rs); done.
  - cbn in Hchildren. rewrite jsonWalk_map, jsonWalkCalls_map.
    destruct (hasKindAndAPIVersion o); [ done | ].
    injection Hchildren as <-.
    rewrite (rangeWalk_all_ok _ rs), (rangeCalls_all_ok _ rs); done.
Qed.

(** The spec's example, with the mapping iterated in the order [a], [b]:
    exactly the two descriptors, each found by a call of its own. *)
Lemma jsonWalk_concatenates_children_witness :
  let podV := VMap (descriptor "Pod" "v1") in
  let svcV := VMap (descriptor "Service" "v1") in
  let doc := VMap [("a", podV); ("b", VSlice [svcV])] in
  jsonWalk doc = Ok [podV; svcV]
  ∧ jsonWalkCalls doc = [doc; podV; VSlice [svcV]; svcV].
Proof.
  intros podV svcV doc.
  apply (jsonWalk_concatenates_children doc [podV; VSlice [svcV]] [[podV]; [svcV]]).
  - reflexivity.
  - repeat constructor.
Defined.

(** In the other order of iteration the same two descriptors come out, the
    other way round. *)
Lemma jsonWalk_example_other_order :
  let podV := VMap (descriptor "Pod" "v1") in
  let svcV := VMap (descriptor "Service" "v1") in
  jsonWalk (VMap [("b", VSlice [svcV]); ("a", podV)]) = Ok [svcV; podV].
Proof. reflexivity. Qed.

(** Whatever the order in which a mapping is iterated, the walk finds the
    same number of descriptors. *)
Lemma rangeWalk_length_perm (vs vs' : list Value) (out out' : list Value) :
  vs ≡ₚ vs' →
  rangeWalk vs [] = Ok out → rangeWalk vs' [] = Ok out' →
  length out = length out'.
Proof.
  intros Hperm (rs & Hrs & ->)%rangeWalk_ok_inv (rs' & Hrs' & ->)%rangeWalk_ok_inv.
  cbn. revert rs rs' Hrs Hrs'.
  induction Hperm as [ | x l l' _ IH | x y l | l l' l'' Hperm1 IH1 _ IH2 ]; intros rs rs' Hrs Hrs'.
  - by inversion Hrs; inversion Hrs'.
  - inversion Hrs as [ | ? r ? rs0 Hx Hl ]; inversion Hrs' as [ | ? r' ? rs0' Hx' Hl' ]; subst.
    cbn. rewrite !length_app. rewrite Hx in Hx'. injection Hx' as <-.
    f_equal. by apply IH.
  - inversion Hrs as [ | ? r1 ? rs1 Hy Hl ]; subst.
    inversion Hl as [ | ? r2 ? rs2 Hx Hl2 ]; subst.
    inversion Hrs' as [ | ? r1' ? rs1' Hx' Hl' ]; subst.
    inversion Hl' as [ | ? r2' ? rs2' Hy' Hl2' ]; subst.
    rewrite Hx in Hx'. injection Hx' as <-. rewrite Hy in Hy'. injection Hy' as <-.
    cbn. rewrite !length_app.
    assert (length (concat rs2) = length (concat rs2')) as ->; [ | lia ].
    clear -Hl2 Hl2'. revert rs2' Hl2'.
    induction Hl2 as [ | v r vs rs Hv _ IH ]; intros rs2' Hl2'; inversion Hl2'; subst; [ done | ].
    cbn. rewrite !length_app. f_equal; [ congruence | by apply IH ].
  - assert (∃ rs1, Forall2 (λ v r, jsonWalk v = Ok r) l' rs1) as [rs1 Hrs1].
    { assert (Forall (λ v, ∃ r, jsonWalk v = Ok r) l) as Hall.
      { clear -Hrs. induction Hrs; constructor; eauto. }
      rewrite Hperm1 in Hall. clear -Hall.
      induction Hall as [ | v vs [r Hr] _ [rs IH] ]; [ by exists [] | ].
      exists (r :: rs). by constructor. }
    rewrite (IH1 rs rs1), (IH2 rs1 rs'); done.
Qed.

(** Every element of the walk's result is a descriptor. *)
Lemma jsonWalk_returns_descriptors (v : Value) (objs : list Value) :
  jsonWalk v = Ok objs → Forall (λ x, isDescriptor x = true) objs.
Proof.
  revert objs.
  assert (∀ vs ret out,
    Forall (λ c, ∀ objs, jsonWalk c = Ok objs →
                 Forall (λ x, isDescriptor x = true) objs) vs →
    Forall (λ x, isDescriptor x = true) ret →
    rangeWalk vs ret = Ok out →
    Forall (λ x, isDescriptor x = true) out) as Hloop.
  { induction vs as [ | c vs IH ]; intros ret out Hvs Hret; cbn.
    - by intros [= <-].
    - inversion Hvs as [ | ? ? Hc Hrest ]; subst.
      destruct (jsonWalk c) as [ r | e ] eqn:Hr; [ | done ].
      apply IH; [ done | ]. apply Forall_app. split; [ done | by apply Hc ]. }
  induction v as [ | b | f | s | l IHl | o IHo ] using Value_nested_ind;
    intros objs; try done.
  - rewrite jsonWalk_slice. by apply Hloop.
  - rewrite jsonWalk_map. destruct (hasKindAndAPIVersion o) eqn:Hguard.
    + intros [= <-]. by repeat constructor.
    + apply Hloop; [ | done ]. by apply Forall_fmap.
Qed.

(** ** The flattener *)

Section FlattenFacts.

Implicit Types (h : heap) (ps ret : list ptr) (objs : list runtime_Object).

Lemma load_app_l h ext (p : ptr) : p < length h → load (h ++ ext) p = load h p.
Proof. intros Hp. unfold load. by rewrite lookup_app_l. Qed.

Lemma deref_app_l h ext ps :
  Forall (λ p, p < length h) ps → deref (h ++ ext) ps = deref h ps.
Proof.
  unfold deref. induction 1 as [ | p ps Hp _ IH ]; cbn; [ done | ].
  by rewrite load_app_l, IH.
Qed.

(** The inner loop appends the address of the loop variable once per item
    and leaves the last item in it; nothing else in the store changes. *)
Lemma rangeItems_fresh h (items : list Unstructured) ret (x : Unstructured) :
  rangeItems (length h) items ret (h ++ [x]) =
    (ret ++ replicate (length items) (length h),
     h ++ [default x (last items)]).
Proof.
  revert ret x. induction items as [ | e items IH ]; intros ret x; cbn.
  - by rewrite app_nil_r.
  - replace (<[length h:=e]> (h ++ [x])) with (h ++ [e]).
    2:{ rewrite <- (Nat.add_0_r (length h)) at 1. by rewrite insert_app_r. }
    rewrite IH, <- app_assoc. cbn. f_equal.
    destruct items as [ | e' items ]; [ done | ].
    rewrite last_cons_cons.
    destruct (last (e' :: items)) eqn:Hlast; [ done | by apply last_None in Hlast ].
Qed.

Lemma flattened_app_l h ext obj :
  validIn h obj → flattened (h ++ ext) obj = flattened h obj.
Proof. destruct obj; cbn; [ | done | done ]. intros Hp. by rewrite load_app_l. Qed.

(** The outer loop, for objects of the two known types whose pointers are
    valid: it returns, the store only grows, and what the returned
    pointers give is [flattened] of every object in turn. *)
Lemma rangeObjs_deref objs ret h :
  Forall (validIn h) objs →
  Forall (λ obj, isKnown obj = true) objs →
  Forall (λ p, p < length h) ret →
  ∃ ret' ext,
    rangeObjs objs ret h = Some (ret', h ++ ext)
    ∧ deref (h ++ ext) ret' = deref h ret ++ concat (flattened h <$> objs).
Proof.
  intros Hvalid Hknown. revert ret h Hvalid.
  induction Hknown as [ | obj objs Hobj _ IH ]; intros ret h Hvalid Hret.
  - exists ret, []. cbn. by rewrite !app_nil_r.
  - inversion Hvalid as [ | ? ? Hv Hvs ]; subst.
    destruct obj as [ p | l | ty ]; [ | | done ]; cbn [rangeObjs].
    + destruct (IH (ret ++ [p]) h Hvs) as (ret' & ext & Hrun & Hderef).
      { apply Forall_app. split; [ done | by repeat constructor ]. }
      exists ret', ext. split; [ done | ].
      rewrite Hderef. unfold deref. rewrite fmap_app. cbn.
      by rewrite <- app_assoc.
    + rewrite rangeItems_fresh.
      set (cell := default zeroUnstructured (last (Items l))).
      destruct (IH (ret ++ replicate (length (Items l)) (length h)) (h ++ [cell]))
        as (ret' & ext & Hrun & Hderef).
      { eapply Forall_impl; [ exact Hvs | ].
        intros [ q | | ]; cbn; [ | done | done ].
        rewrite length_app. cbn. lia. }
      { apply Forall_app. split.
        - eapply Forall_impl; [ exact Hret | ].
          cbn. intros q Hq. rewrite length_app. cbn. lia.
        - apply Forall_forall. intros q Hq%elem_of_replicate_inv. subst q.
          rewrite length_app. cbn. lia. }
      exists ret', ([cell] ++ ext). rewrite app_assoc. split; [ done | ].
      rewrite Hderef. unfold deref at 1. rewrite fmap_app, <- app_assoc.
      f_equal; [ by apply deref_app_l | ].
      cbn [fmap list_fmap concat]. f_equal.
      * rewrite fmap_replicate. cbn. f_equal.
        unfold load. by rewrite list_lookup_middle.
      * f_equal. apply Forall_fmap_ext_1.
        eapply Forall_impl; [ exact Hvs | ].
        intros obj Hobj'. by apply flattened_app_l.
Qed.

(** [FlattenToV1], read through the pointers it returns. *)
Lemma FlattenToV1_deref objs h :
  Forall (validIn h) objs →
  Forall (λ obj, isKnown obj = true) objs →
  ∃ ps ext,
    FlattenToV1 objs h = Some (ps, h ++ ext)
    ∧ deref (h ++ ext) ps = concat (flattened h <$> objs).
Proof.
  intros Hvalid Hknown.
  destruct (rangeObjs_deref objs [] h Hvalid Hknown) as (ps & ext & Hrun & Hderef);
    [ constructor | ].
  by exists ps, ext.
Qed.

(** An object of any other type makes [FlattenToV1] panic. *)
Lemma FlattenToV1_panics objs1 ty objs2 h :
  Forall (validIn h) objs1 →
  Forall (λ obj, isKnown obj = true) objs1 →
  FlattenToV1 (objs1 ++ OtherObject ty :: objs2) h = None.
Proof.
  unfold FlattenToV1. generalize (@nil ptr). intros ret Hvalid Hknown.
  revert ret h Hvalid.
  induction Hknown as [ | obj objs Hobj _ IH ]; intros ret h Hvalid; [ done | ].
  inversion Hvalid as [ | ? ? Hv Hvs ]; subst.
  destruct obj as [ p | l | ty' ]; [ | | done ]; cbn.
  - by apply IH.
  - rewrite rangeItems_fresh. apply IH.
    eapply Forall_impl; [ exact Hvs | ].
    intros [ q | | ]; cbn; [ | done | done ]. rewrite length_app. cbn. lia.
Qed.

(** Where no list holds two different items the flattener gives what its
    documentation says: the members of every list, and every other object
    as it is. *)
Lemma flattened_members h obj :
  (∀ l, obj = PtrUnstructuredList l → ∀ x, x ∈ Items l → Some x = last (Items l)) →
  flattened h obj = members h obj.
Proof.
  destruct obj as [ p | l | ty ]; cbn; [ done | | done ].
  intros Hsame. specialize (Hsame l eq_refl).
  generalize dependent (Items l). intros items Hsame.
  destruct (last items) as [ y | ] eqn:Hlast; cbn.
  - assert (Forall (λ x, x = y) items) as Hall.
    { apply Forall_forall. intros x Hx. by apply (inj Some), Hsame. }
    clear Hsame Hlast.
    induction Hall as [ | x items -> _ IH ]; cbn; [ done | by f_equal ].
  - apply last_None in Hlast. by subst.
Qed.

(** So the flattener agrees with its description on every input in which
    the items of each list are all the same record, as in the spec's example
    of a list of two identical Pods. *)
Lemma FlattenToV1_expands_when_items_agree objs h :
  Forall (validIn h) objs →
  Forall (λ obj, isKnown obj = true) objs →
  Forall (λ obj, ∀ l, obj = PtrUnstructuredList l →
                 ∀ x, x ∈ Items l → Some x = last (Items l)) objs →
  ∃ ps ext,
    FlattenToV1 objs h = Some (ps, h ++ ext)
    ∧ deref (h ++ ext) ps = expandLists h objs.
Proof.
  intros Hvalid Hknown Hagree.
  destruct (FlattenToV1_deref objs h Hvalid Hknown) as (ps & ext & Hrun & Hderef).
  exists ps, ext. split; [ done | ]. rewrite Hderef. unfold expandLists. f_equal.
  apply Forall_fmap_ext_1. eapply Forall_impl; [ exact Hagree | ].
  intros obj Hobj. by apply flattened_members.
Qed.

End FlattenFacts.

(** X12. Plain objects pass through: the very pointers come back, in order,
    and the store is untouched. *)
Lemma FlattenToV1_plain (ps : list ptr) (h : heap) :
  FlattenToV1 (PtrUnstructured <$> ps) h = Some (ps, h).
Proof.
  unfold FlattenToV1. change ps with ([] ++ ps) at 2.
  generalize (@nil ptr). induction ps as [ | p ps IH ]; intros ret; cbn.
  - by rewrite app_nil_r.
  - rewrite IH. by rewrite <- app_assoc.
Qed.

(** X13. A list alone: as many pointers as it has items, every one of them
    the address of the one new cell of the store, the loop variable, which
    holds the last item (and the zero record when the list is empty). *)
Lemma FlattenToV1_list_alone (l : UnstructuredList) (h : heap) :
  FlattenToV1 [PtrUnstructuredList l] h =
    Some (replicate (length (Items l)) (length h),
          h ++ [default zeroUnstructured (last (Items l))]).
Proof. unfold FlattenToV1. cbn. by rewrite rangeItems_fresh. Qed.

(** C1. At a list of two different Pods the flattener does not return the
    two items: it returns the address of its loop variable twice, and both
    pointers read the second Pod.  The documented expansion of the same
    input is the two Pods in order. *)
Theorem FlattenToV1_two_pods_alias :
  let wrapper := PtrUnstructuredList (listOf [pod "a"; pod "b"]) in
  FlattenToV1 [wrapper] [] = Some ([0; 0], [pod "b"])
  ∧ deref [pod "b"] [0; 0] = [pod "b"; pod "b"]
  ∧ expandLists [] [wrapper] = [pod "a"; pod "b"]
  ∧ deref [pod "b"] [0; 0] ≠ expandLists [] [wrapper].
Proof. repeat split. discriminate. Qed.

(** ** From extraction to the output *)

Section PipelineFacts.

Lemma elem_of_concat {A} (x : A) (ls : list (list A)) :
  x ∈ concat ls ↔ ∃ l, x ∈ l ∧ l ∈ ls.
Proof.
  induction ls as [ | l ls IH ]; cbn.
  - split; [ by intros ?%elem_of_nil | by intros (l & _ & ?%elem_of_nil) ].
  - rewrite elem_of_app, IH. split.
    + intros [ Hx | (l' & Hx & Hl') ].
      * exists l. split; [ done | by constructor ].
      * exists l'. split; [ done | by constructor ].
    + intros (l' & Hx & Hl'). inversion Hl'; subst; [ by left | right; eauto ].
Qed.

Lemma Decode_plain_inv (v : Value) (u : Unstructured) :
  Decode v = Ok (DUnstructured u) →
  v = VMap (Object u) ∧ isListWrapper u = false.
Proof.
  destruct v as [ | | | | | o ]; try done. unfold Decode, isListWrapper.
  destruct (index o "items") as [ | | | | l | ] eqn:Hitems;
    try (intros [= <-]; cbn; by rewrite Hitems).
  destruct (mapM asUnstructured l); done.
Qed.

Lemma Decode_list_inv (v : Value) (l : UnstructuredList) :
  Decode v = Ok (DUnstructuredList l) →
  v = VMap (ListObject l)
  ∧ ∃ vs, index (ListObject l) "items" = VSlice vs
          ∧ vs = (λ u, VMap (Object u)) <$> Items l.
Proof.
  destruct v as [ | | | | | o ]; try done. unfold Decode.
  destruct (index o "items") as [ | | | | vs | ] eqn:Hitems; try done.
  destruct (mapM asUnstructured vs) as [ items | ] eqn:Hmap; [ | done ].
  intros [= <-]. cbn. split; [ done | ]. exists vs. split; [ done | ].
  apply mapM_Some_1 in Hmap. clear Hitems.
  induction Hmap as [ | x u xs us Hx _ IH ]; cbn; [ done | ].
  f_equal; [ | done ]. destruct x; try done. by injection Hx as <-.
Qed.

Lemma decodedAs_app_l (h ext : heap) v obj :
  decodedAs h v obj → decodedAs (h ++ ext) v obj.
Proof.
  destruct obj as [ p | l | ty ]; cbn; [ | done | done ].
  intros (o & -> & Hdec & Hp). exists o. repeat split; [ done | ].
  by apply lookup_app_l_Some.
Qed.

(** The decoding loop only appends, to [ret] and to the store, one object
    of a known type per extracted value. *)
Lemma decodeAll_inv (objs : list Value) (ret : list runtime_Object) (h : heap) ret' h' :
  decodeAll objs ret h = Ok (ret', h') →
  ∃ new ext,
    ret' = ret ++ new ∧ h' = h ++ ext
    ∧ Forall2 (decodedAs h') objs new.
Proof.
  revert ret h. induction objs as [ | v objs IH ]; intros ret h; cbn.
  - intros [= <- <-]. exists [], []. rewrite !app_nil_r. repeat split. constructor.
  - destruct (Decode v) as [ [ u | l ] | e ] eqn:Hdec; [ | | done ].
    + intros (new & ext & -> & -> & Hnew)%IH.
      exists (PtrUnstructured (length h) :: new), (u :: ext).
      rewrite <- !app_assoc in *. cbn in *. repeat split. constructor; [ | done ].
      destruct (Decode_plain_inv _ _ Hdec) as [-> _]. destruct u as [o]. cbn.
      exists o. repeat split; [ done | ].
      by apply list_lookup_middle.
    + intros (new & ext & -> & -> & Hnew)%IH.
      exists (PtrUnstructuredList l :: new), ext.
      rewrite <- !app_assoc. repeat split. by constructor.
Qed.

End PipelineFacts.

(** C7, as the code has it.  When the pipeline returns, every extracted
    object is a descriptor, and every element of the output is either an
    extracted descriptor that is not a list-wrapper (so it has [kind] and
    [apiVersion] and is no wrapper) or an item held by an extracted
    list-wrapper.  Nothing is established about such an item: no code looks
    at it. *)
Theorem output_elements_origin (top : Value) (out : list Unstructured) :
  outputOf top = Some out →
  ∃ objs,
    jsonWalk top = Ok objs
    ∧ Forall (λ v, isDescriptor v = true) objs
    ∧ Forall (λ u,
        (VMap (Object u) ∈ objs
         ∧ hasKindAndAPIVersion (Object u) = true
         ∧ isListWrapper u = false)
        ∨ (∃ l, VMap (ListObject l) ∈ objs
                ∧ Decode (VMap (ListObject l)) = Ok (DUnstructuredList l)
                ∧ u ∈ Items l)) out.
Proof.
  unfold outputOf, jsonTok8sObjs.
  destruct (jsonWalk top) as [ objs | e ] eqn:Hwalk; [ | done ].
  destruct (decodeAll objs [] []) as [ [ret h] | e ] eqn:Hdecode; [ | done ].
  pose proof (jsonWalk_returns_descriptors _ _ Hwalk) as Hdescr.
  apply decodeAll_inv in Hdecode as (new & ext & -> & -> & Hnew). cbn [app] in *.
  destruct (FlattenToV1_deref new ext) as (ps & ext' & Hflat & Hderef).
  { eapply Forall2_Forall_r; [ exact Hnew | ]. apply Forall_true.
    intros v [ p | l | ty ]; cbn; [ | done | done ].
    intros (o & _ & _ & Hp). by apply lookup_lt_Some in Hp. }
  { eapply Forall2_Forall_r; [ exact Hnew | ]. apply Forall_true.
    by intros v [ p | l | ty ]. }
  rewrite Hflat. intros [= <-]. exists objs. split; [ done | ]. split; [ done | ].
  rewrite Hderef. apply Forall_forall. intros u Hu.
  apply elem_of_concat in Hu as (us & Hu & Hus).
  apply list_elem_of_fmap in Hus as (obj & -> & Hobj).
  destruct (list_elem_of_lookup_1 _ _ Hobj) as [i Hi].
  destruct (Forall2_lookup_r _ _ _ _ _ Hnew Hi) as (v & Hv & Hvobj).
  apply list_elem_of_lookup_2 in Hv.
  destruct obj as [ p | l | ty ]; cbn in Hvobj, Hu; [ | | done ].
  - destruct Hvobj as (o & -> & Hdec & Hp).
    apply list_elem_of_singleton in Hu. subst u. unfold load. rewrite Hp. cbn.
    left. split; [ done | ]. split.
    + rewrite Forall_forall in Hdescr. exact (Hdescr _ Hv).
    + by destruct (Decode_plain_inv _ _ Hdec).
  - right. exists l.
    destruct (Decode_list_inv _ _ Hvobj) as [-> _].
    split; [ done | ]. split; [ done | ].
    apply elem_of_replicate in Hu as [-> Hlen].
    destruct (last (Items l)) as [ y | ] eqn:Hlast; cbn.
    + by apply last_Some_elem_of.
    + apply last_None in Hlast. by rewrite Hlast in Hlen.
Qed.

(** A document that is a list of two identical Pods: the pipeline returns,
    and the theorem places both output elements among the list's items. *)
Lemma output_elements_origin_witness :
  let podV := VMap (descriptor "Pod" "v1") in
  let top := VMap (descriptor "List" "v1" ++ [("items", VSlice [podV; podV])]) in
  let out := [ {| Object := descriptor "Pod" "v1" |}; {| Object := descriptor "Pod" "v1" |} ] in
  outputOf top = Some out
  ∧ ∃ objs,
      jsonWalk top = Ok objs
      ∧ Forall (λ v, isDescriptor v = true) objs
      ∧ Forall (λ u,
          (VMap (Object u) ∈ objs
           ∧ hasKindAndAPIVersion (Object u) = true
           ∧ isListWrapper u = false)
          ∨ (∃ l, VMap (ListObject l) ∈ objs
                  ∧ Decode (VMap (ListObject l)) = Ok (DUnstructuredList l)
                  ∧ u ∈ Items l)) out.
Proof.
  intros podV top out. split; [ reflexivity | ].
  apply (output_elements_origin top out). reflexivity.
Defined.

(** C7 as stated fails in both halves.  A list whose item has a [kind] but
    no [apiVersion] puts that item in the output; a list whose item is a
    list again puts the inner list in the output, since only one level is
    expanded and the walk does not look below a descriptor. *)
Lemma output_invariant_fails :
  ¬ everyOutputHasKindAndAPIVersion ∧ ¬ noOutputIsListWrapper.
Proof.
  split.
  - intros H.
    specialize (H (VMap (descriptor "List" "v1"
                           ++ [("items", VSlice [VMap [("kind", VString "Pod")]])]))
                  [ {| Object := [("kind", VString "Pod")] |} ]
                  eq_refl).
    by inversion H.
  - intros H.
    specialize (H (VMap (descriptor "List" "v1"
                           ++ [("items",
                                VSlice [VMap (descriptor "List" "v1"
                                                ++ [("items", VSlice [VMap (descriptor "Pod" "v1")])])])]))
                  [ {| Object := descriptor "List" "v1"
                                   ++ [("items", VSlice [VMap (descriptor "Pod" "v1")])] |} ]
                  eq_refl).
    by inversion H.
Qed.

(** ** Paths *)

Section PathFacts.

Implicit Types (a b path : string) (elems out : list string).

Lemma string_app_assoc a b c : (a +:+ b) +:+ c = a +:+ b +:+ c.
Proof.
  induction a as [ | x a IH ]; [ done | ].
  change (String x ((a +:+ b) +:+ c) = String x (a +:+ b +:+ c)).
  by rewrite IH.
Qed.

Lemma splitSlash_not_nil path : splitSlash path ≠ [].
Proof.
  destruct path as [ | c rest ]; cbn; [ done | ].
  destruct (Ascii.eqb c slash); [ done | ]. by destruct (splitSlash rest).
Qed.

Lemma concat_splitSlash path : String.concat "/" (splitSlash path) = path.
Proof.
  induction path as [ | c rest IH ]; [ done | ]. cbn [splitSlash].
  pose proof (splitSlash_not_nil rest) as Hne.
  destruct (Ascii.eqb c slash) eqn:Hc.
  - apply Ascii.eqb_eq in Hc as ->.
    destruct (splitSlash rest) as [ | x xs ]; [ done | ].
    change (String.concat "/" ("" :: x :: xs))
      with (String slash (String.concat "/" (x :: xs))).
    by rewrite IH.
  - destruct (splitSlash rest) as [ | x xs ]; [ done | ].
    rewrite <- IH. by destruct xs.
Qed.

Lemma splitSlash_app a b :
  splitSlash (a +:+ "/" +:+ b) = splitSlash a ++ splitSlash b.
Proof.
  induction a as [ | c rest IH ]; [ done | ].
  change (String c rest +:+ "/" +:+ b) with (String c (rest +:+ "/" +:+ b)).
  cbn [splitSlash]. rewrite IH.
  destruct (Ascii.eqb c slash); [ done | ].
  pose proof (splitSlash_not_nil rest). by destruct (splitSlash rest).
Qed.

Lemma cleanElems_plain (rooted : bool) elems out :
  forallb plainElem elems = true →
  cleanElems rooted elems out = rev out ++ elems.
Proof.
  revert out. induction elems as [ | e elems IH ]; intros out; cbn.
  - by rewrite app_nil_r.
  - intros [He Helems]%andb_prop. unfold plainElem in He.
    apply negb_true_iff in He.
    apply orb_false_elim in He as [ [He1 He2]%orb_false_elim He3 ].
    rewrite He1, He2, He3. cbn. rewrite IH by done. cbn.
    by rewrite <- app_assoc.
Qed.

Lemma isPlain_not_rooted path : isPlain path = true → isRooted path = false.
Proof.
  destruct path as [ | c rest ]; [ done | ]. unfold isPlain. cbn.
  destruct (Ascii.eqb c slash); [ done | done ].
Qed.

(** [filepath.Clean] leaves a plain path alone. *)
Lemma Clean_plain path : isPlain path = true → Clean path = path.
Proof.
  intros Hplain. unfold Clean.
  destruct (String.eqb path "") eqn:Hempty.
  { apply String.eqb_eq in Hempty. by subst. }
  rewrite (isPlain_not_rooted _ Hplain).
  rewrite cleanElems_plain by done. cbn. rewrite concat_splitSlash.
  by rewrite Hempty.
Qed.

(** Joining two plain paths puts a separator between them. *)
Lemma Join_plain a b :
  isPlain a = true → isPlain b = true →
  Join [a; b] = a +:+ "/" +:+ b ∧ isPlain (a +:+ "/" +:+ b) = true.
Proof.
  intros Ha Hb.
  assert (isPlain (a +:+ "/" +:+ b) = true) as Hab.
  { unfold isPlain in *. rewrite splitSlash_app, forallb_app. by rewrite Ha, Hb. }
  split; [ | done ]. cbn [Join].
  destruct (String.eqb a "") eqn:Hempty.
  { apply String.eqb_eq in Hempty. by subst. }
  change (String.concat "/" [a; b]) with (a +:+ "/" +:+ b).
  by apply Clean_plain.
Qed.

(** For a plain environment name the candidates are the paths the spec
    writes. *)
Lemma candidate_plain path file :
  isPlain path = true → isPlain file = true →
  candidate path file = "environments/" +:+ path +:+ "/" +:+ file.
Proof.
  intros Hpath Hfile. unfold candidate.
  destruct (Join_plain "environments" path eq_refl Hpath) as [-> Henv].
  destruct (Join_plain _ file Henv Hfile) as [-> _].
  by rewrite !string_app_assoc.
Qed.

End PathFacts.

(** ** The path resolver *)

Section ResolverFacts.

Variables (os : OS) (name pwd : string).
Hypothesis Hwd : wd os = Ok pwd.

Let lib := candidate name "main.libsonnet".
Let jsn := candidate name "main.jsonnet".

(** The resolver, once the working directory is known, as a decision on
    the two [os.Stat] answers. *)
Lemma getJPathsAndFile_unfold :
  getJPathsAndFile name os =
    if negb (os_IsNotExist (stat os lib))
    then (Ok (japthsOf pwd name, lib), [CallGetwd; CallStat lib])
    else if negb (os_IsNotExist (stat os jsn))
    then (Ok (japthsOf pwd name, jsn), [CallGetwd; CallStat lib; CallStat jsn])
    else (Err errorMainNotFound, [CallGetwd; CallStat lib; CallStat jsn]).
Proof.
  unfold getJPathsAndFile, ioBind, os_Getwd, os_Stat, ioRet. rewrite Hwd.
  fold lib. unfold candidate in lib. fold lib.
  destruct (os_IsNotExist (stat os lib)); [ | done ]. cbn [negb].
  fold jsn. unfold candidate in jsn. fold jsn.
  destruct (os_IsNotExist (stat os jsn)); done.
Qed.

End ResolverFacts.

(** Without a working directory nothing is looked up. *)
Lemma getJPathsAndFile_no_wd (os : OS) (name : string) (err : error) :
  wd os = Err err → getJPathsAndFile name os = (Err err, [CallGetwd]).
Proof. intros H. unfold getJPathsAndFile, ioBind, os_Getwd, ioRet. by rewrite H. Qed.

(** C4. With the working directory known, the resolver asks for
    [environments/<name>/main.libsonnet] first and takes it when it is
    there, without asking for the other file; when it does not exist the
    resolver asks for [environments/<name>/main.jsonnet] and takes that when
    it is there; when neither exists it fails with [errorMainNotFound],
    whose text names both files.  So [main.libsonnet] wins when both are
    there.  For a name made of ordinary path elements the two candidates
    are literally [environments/<name>/main.libsonnet] and
    [environments/<name>/main.jsonnet]. *)
Theorem resolve_entry_file (os : OS) (name pwd : string) :
  wd os = Ok pwd →
  let lib := candidate name "main.libsonnet" in
  let jsn := candidate name "main.jsonnet" in
  (stat os lib = None →
     resolve os name = Ok (japthsOf pwd name, lib)
     ∧ resolveCalls os name = [CallGetwd; CallStat lib])
  ∧ (os_IsNotExist (stat os lib) = true → stat os jsn = None →
     resolve os name = Ok (japthsOf pwd name, jsn)
     ∧ resolveCalls os name = [CallGetwd; CallStat lib; CallStat jsn])
  ∧ (os_IsNotExist (stat os lib) = true → os_IsNotExist (stat os jsn) = true →
     resolve os name = Err errorMainNotFound
     ∧ resolveCalls os name = [CallGetwd; CallStat lib; CallStat jsn])
  ∧ (mentions "main.libsonnet" (errorText errorMainNotFound) = true
     ∧ mentions "main.jsonnet" (errorText errorMainNotFound) = true)
  ∧ (isPlain name = true →
     lib = "environments/" +:+ name +:+ "/main.libsonnet"
     ∧ jsn = "environments/" +:+ name +:+ "/main.jsonnet").
Proof.
  intros Hwd lib jsn. unfold resolve, resolveCalls.
  rewrite (getJPathsAndFile_unfold os name pwd Hwd). fold lib jsn.
  split; [ | split; [ | split; [ | split ] ] ].
  - intros Hlib. by rewrite Hlib.
  - intros Hlib Hjsn. by rewrite Hlib, Hjsn.
  - intros Hlib Hjsn. by rewrite Hlib, Hjsn.
  - done.
  - intros Hplain. unfold lib, jsn. by rewrite !candidate_plain.
Qed.

(** The environment that [main] resolves. *)
Lemma candidate_of_main :
  candidate "jaeger/ops-tools1-us-east4.jaeger" "main.libsonnet"
    = "environments/jaeger/ops-tools1-us-east4.jaeger/main.libsonnet".
Proof. reflexivity. Qed.

(** Both files there, only [main.jsonnet] there, neither there. *)
Lemma resolve_entry_file_witness :
  resolve (osWith ["environments/prod/main.libsonnet"; "environments/prod/main.jsonnet"]) "prod"
    = Ok (["/w/lib"; "/w/vendor"; "prod/.metadata"], "environments/prod/main.libsonnet")
  ∧ resolve (osWith ["environments/prod/main.jsonnet"]) "prod"
    = Ok (["/w/lib"; "/w/vendor"; "prod/.metadata"], "environments/prod/main.jsonnet")
  ∧ resolve (osWith []) "prod" = Err errorMainNotFound.
Proof.
  split; [ | split ].
  - apply (resolve_entry_file
             (osWith ["environments/prod/main.libsonnet"; "environments/prod/main.jsonnet"])
             "prod" "/w" eq_refl).
    reflexivity.
  - apply (resolve_entry_file (osWith ["environments/prod/main.jsonnet"])
             "prod" "/w" eq_refl); reflexivity.
  - apply (resolve_entry_file (osWith []) "prod" "/w" eq_refl); reflexivity.
Defined.

(** C10. A [Stat] error other than not-exist on a candidate makes the
    resolver take that candidate: it returns it as the entry file, does not
    return the error and does not go on to the next candidate. *)
Theorem resolve_takes_candidate_on_stat_error (os : OS) (name pwd : string) (err : error) :
  wd os = Ok pwd →
  os_IsNotExist (Some err) = false →
  let lib := candidate name "main.libsonnet" in
  let jsn := candidate name "main.jsonnet" in
  (stat os lib = Some err →
     resolve os name = Ok (japthsOf pwd name, lib)
     ∧ resolveCalls os name = [CallGetwd; CallStat lib])
  ∧ (os_IsNotExist (stat os lib) = true → stat os jsn = Some err →
     resolve os name = Ok (japthsOf pwd name, jsn)
     ∧ resolveCalls os name = [CallGetwd; CallStat lib; CallStat jsn]).
Proof.
  intros Hwd Herr lib jsn. unfold resolve, resolveCalls.
  rewrite (getJPathsAndFile_unfold os name pwd Hwd). fold lib jsn.
  split.
  - intros Hlib. by rewrite Hlib, Herr.
  - intros Hlib Hjsn. by rewrite Hlib, Hjsn, Herr.
Qed.

(** Permission denied on [main.libsonnet] while [main.jsonnet] exists: the
    unreadable candidate is returned and [main.jsonnet] is never asked for. *)
Lemma resolve_takes_candidate_on_stat_error_witness :
  let os := osDenying "environments/prod/main.libsonnet" ["environments/prod/main.jsonnet"] in
  resolve os "prod"
    = Ok (["/w/lib"; "/w/vendor"; "prod/.metadata"], "environments/prod/main.libsonnet")
  ∧ resolveCalls os "prod" = [CallGetwd; CallStat "environments/prod/main.libsonnet"].
Proof.
  intros os.
  apply (resolve_takes_candidate_on_stat_error os "prod" "/w"
           (PathError "stat" "environments/prod/main.libsonnet" EACCES)
           eq_refl eq_refl).
  reflexivity.
Defined.

(** C8. Two resolutions of one name that see the same working directory and
    the same [Stat] answers give the same import paths and the same entry
    file (or the same error), after the same calls. *)
Theorem resolve_deterministic (os1 os2 : OS) (name : string) :
  wd os1 = wd os2 →
  (∀ file, stat os1 file = stat os2 file) →
  resolve os1 name = resolve os2 name
  ∧ resolveCalls os1 name = resolveCalls os2 name.
Proof.
  intros Hwd Hstat. unfold resolve, resolveCalls.
  destruct (wd os2) as [ pwd | err ] eqn:Hwd2.
  - rewrite (getJPathsAndFile_unfold os1 name pwd Hwd),
            (getJPathsAndFile_unfold os2 name pwd Hwd2), !Hstat.
    done.
  - by rewrite (getJPathsAndFile_no_wd os1 name err Hwd),
               (getJPathsAndFile_no_wd os2 name err Hwd2).
Qed.

Lemma resolve_deterministic_witness :
  let os := osWith ["environments/prod/main.jsonnet"] in
  resolve os "prod" = resolve os "prod"
  ∧ resolveCalls os "prod" = resolveCalls os "prod".
Proof.
  intros os. apply (resolve_deterministic os os "prod").
  - reflexivity.
  - intros file. reflexivity.
Defined.

(** C5, as the code has it.  A successful resolution returns exactly three
    import roots, in this order: [lib] and [vendor] joined onto the working
    directory, and [.metadata] joined onto the environment name alone. *)
Theorem resolve_import_roots (os : OS) (name : string) (paths : list string) (file : string) :
  resolve os name = Ok (paths, file) →
  ∃ pwd, wd os = Ok pwd
    ∧ paths = [Join [pwd; "lib"]; Join [pwd; "vendor"]; Join [name; ".metadata"]].
Proof.
  unfold resolve. destruct (wd os) as [ pwd | err ] eqn:Hwd.
  - rewrite (getJPathsAndFile_unfold os name pwd Hwd). intros H. exists pwd.
    split; [ done | ].
    destruct (negb _); [ by injection H as <- _ | ].
    destruct (negb _); [ by injection H as <- _ | done ].
  - by rewrite (getJPathsAndFile_no_wd os name err Hwd).
Qed.

Lemma resolve_import_roots_witness :
  ∃ pwd, wd (osWith ["environments/prod/main.jsonnet"]) = Ok pwd
    ∧ ["/w/lib"; "/w/vendor"; "prod/.metadata"]
      = [Join [pwd; "lib"]; Join [pwd; "vendor"]; Join ["prod"; ".metadata"]].
Proof.
  apply (resolve_import_roots (osWith ["environments/prod/main.jsonnet"]) "prod"
           ["/w/lib"; "/w/vendor"; "prod/.metadata"] "environments/prod/main.jsonnet").
  reflexivity.
Defined.

(** C5 as stated fails.  For the environment [prod] in [/w] the third root
    is [prod/.metadata], not [/w/prod/.metadata]; and for the absolute name
    [/srv/prod] the third root is [/srv/prod/.metadata], which does not even
    denote a directory below [/w]. *)
Lemma roots_not_all_relative_to_wd :
  ¬ rootsJoinedToWd ∧ ¬ rootsDenoteBelowWd.
Proof.
  split.
  - intros H.
    specialize (H (osWith ["environments/prod/main.jsonnet"]) "prod" "/w"
                  ["/w/lib"; "/w/vendor"; "prod/.metadata"]
                  "environments/prod/main.jsonnet" eq_refl eq_refl).
    discriminate H.
  - intros H.
    specialize (H (osWith ["environments/srv/prod/main.jsonnet"]) "/srv/prod" "/w"
                  ["/w/lib"; "/w/vendor"; "/srv/prod/.metadata"]
                  "environments/srv/prod/main.jsonnet" eq_refl eq_refl).
    discriminate H.
Qed.

(** ** [parseYaml] *)

Section ParseYamlFacts.

(** Documents at the front of the decoder are appended in their order. *)
Lemma parseYamlLoop_docs (docs : list Value) (rest : YAMLToJSONDecoder) (ret : list Value) :
  parseYamlLoop ((Ok <$> docs) ++ rest) ret = parseYamlLoop rest (ret ++ docs).
Proof.
  revert ret. induction docs as [ | doc docs IH ]; intros ret; cbn.
  - by rewrite app_nil_r.
  - rewrite IH. by rewrite <- app_assoc.
Qed.

(** The loop ends at the first [Decode] that gives no document: with the
    documents so far when that is [io.EOF], with the error otherwise. *)
Lemma parseYamlLoop_total (d : YAMLToJSONDecoder) (ret : list Value) :
  (∃ docs, parseYamlLoop d ret = Ok (ret ++ docs))
  ∨ (∃ err, err ≠ io_EOF ∧ Err err ∈ d ∧ parseYamlLoop d ret = Err err).
Proof.
  revert ret. induction d as [ | [ doc | err ] d IH ]; intros ret; cbn.
  - left. exists []. by rewrite app_nil_r.
  - destruct (IH (ret ++ [doc])) as [ [docs Hdocs] | (err & Hne & Hin & Herr) ].
    + left. exists (doc :: docs). by rewrite Hdocs, <- app_assoc.
    + right. exists err. repeat split; [ done | by constructor | done ].
  - destruct err; try (right; eexists; repeat split; [ done | by constructor ]).
    left. exists []. by rewrite app_nil_r.
Qed.

End ParseYamlFacts.

(** C9. For any decoder the library hands out: when it yields the documents
    [docs] and then [io.EOF], [parseYaml] returns [docs] in that order; when
    it yields no document at all, as for an empty text, [parseYaml] returns
    the empty list; when some document fails to decode, [parseYaml] fails
    with that error. *)
Theorem parseYaml_collects_documents
    (NewYAMLToJSONDecoder : string → YAMLToJSONDecoder) (data : string) :
  (∀ docs, NewYAMLToJSONDecoder data = Ok <$> docs →
     parseYaml NewYAMLToJSONDecoder data = Ok docs)
  ∧ (NewYAMLToJSONDecoder data = [] →
     parseYaml NewYAMLToJSONDecoder data = Ok [])
  ∧ (∀ docs err rest, err ≠ io_EOF →
     NewYAMLToJSONDecoder data = (Ok <$> docs) ++ Err err :: rest →
     parseYaml NewYAMLToJSONDecoder data = Err err).
Proof.
  unfold parseYaml. split; [ | split ].
  - intros docs ->. rewrite <- (app_nil_r (Ok <$> docs)).
    by rewrite parseYamlLoop_docs.
  - by intros ->.
  - intros docs err rest Hne ->. rewrite parseYamlLoop_docs. cbn.
    by destruct err.
Qed.

(** The two-document text, an empty text and a malformed text. *)
Lemma parseYaml_collects_documents_witness :
  parseYaml sampleDecoder twoDocuments = Ok [docA; docB]
  ∧ parseYaml sampleDecoder "" = Ok []
  ∧ parseYaml sampleDecoder "a: ["
    = Err (LibError "yaml: did not find expected node content").
Proof.
  split; [ | split ].
  - apply (parseYaml_collects_documents sampleDecoder twoDocuments). reflexivity.
  - apply (parseYaml_collects_documents sampleDecoder ""). reflexivity.
  - apply (proj2 (proj2 (parseYaml_collects_documents sampleDecoder "a: [")) []
             (LibError "yaml: did not find expected node content") []).
    + discriminate.
    + reflexivity.
Defined.

(** * Further properties of the walk *)

Section WalkMore.

Implicit Types (v : Value) (vs ret : list Value) (o : list (string * Value)).

(** The accumulator of a loop is a prefix of its result and plays no other
    part. *)
Lemma rangeWalk_acc vs ret :
  rangeWalk vs ret =
    match rangeWalk vs [] with
    | Ok out => Ok (ret ++ out)
    | Err e => Err e
    end.
Proof.
  revert ret. induction vs as [ | v vs IH ]; intros ret; cbn.
  - by rewrite app_nil_r.
  - destruct (jsonWalk v) as [ r | e ]; [ | done ].
    rewrite (IH (ret ++ r)), (IH r).
    destruct (rangeWalk vs []); [ | done ]. by rewrite app_assoc.
Qed.

Lemma rangeWalk_app vs1 vs2 ret :
  rangeWalk (vs1 ++ vs2) ret =
    match rangeWalk vs1 ret with
    | Ok out => rangeWalk vs2 out
    | Err e => Err e
    end.
Proof.
  revert ret. induction vs1 as [ | v vs1 IH ]; intros ret; cbn; [ done | ].
  destruct (jsonWalk v); [ apply IH | done ].
Qed.

Lemma jsonWalk_descriptor v : isDescriptor v = true → jsonWalk v = Ok [v].
Proof.
  destruct v as [ | | | | | o ]; try done. cbn [isDescriptor]. intros H.
  by rewrite jsonWalk_map, H.
Qed.

End WalkMore.

(** X1. The result of a successful walk is the list of the descriptors among
    the values the walk was called on, in the order of the calls: every
    descriptor that is reached is returned, once, and nothing else is. *)
Theorem jsonWalk_result_is_visited_descriptors (v : Value) (objs : list Value) :
  jsonWalk v = Ok objs →
  objs = filter (λ c, isDescriptor c = true) (jsonWalkCalls v).
Proof.
  revert objs.
  assert (∀ vs ret out,
    Forall (λ c, ∀ objs, jsonWalk c = Ok objs →
                 objs = filter (λ c, isDescriptor c = true) (jsonWalkCalls c)) vs →
    rangeWalk vs ret = Ok out →
    out = ret ++ filter (λ c, isDescriptor c = true) (rangeCalls vs)) as Hloop.
  { induction vs as [ | c vs IH ]; intros ret out Hvs; cbn.
    - intros [= <-]. by rewrite app_nil_r.
    - inversion Hvs as [ | ? ? Hc Hrest ]; subst.
      destruct (jsonWalk c) as [ r | e ] eqn:Hr; [ | done ]. cbn.
      intros Hout. rewrite (IH _ _ Hrest Hout), filter_app, <- (Hc r eq_refl).
      by rewrite app_assoc. }
  induction v as [ | b | f | s | l IHl | o IHo ] using Value_nested_ind;
    intros objs; try done.
  - rewrite jsonWalk_slice, jsonWalkCalls_slice. intros Hwalk.
    rewrite (Hloop _ _ _ IHl Hwalk). by rewrite filter_cons_False.
  - rewrite jsonWalk_map, jsonWalkCalls_map.
    destruct (hasKindAndAPIVersion o) eqn:Hguard.
    + intros [= <-]. by rewrite filter_cons_True.
    + intros Hwalk. rewrite (Hloop (snd <$> o) [] objs); [ | by apply Forall_fmap | done ].
      rewrite filter_cons_False; [ done | ]. cbn. by rewrite Hguard.
Qed.

Lemma jsonWalk_result_is_visited_descriptors_witness :
  let podV := VMap (descriptor "Pod" "v1") in
  let svcV := VMap (descriptor "Service" "v1") in
  let doc := VMap [("a", podV); ("b", VSlice [svcV])] in
  [podV; svcV] = filter (λ c, isDescriptor c = true) (jsonWalkCalls doc).
Proof.
  intros podV svcV doc.
  apply (jsonWalk_result_is_visited_descriptors doc [podV; svcV]). reflexivity.
Defined.

(** X2. The walk fails at the first scalar it is called on and nowhere else:
    a walk that returns was never called on a scalar, and a walk that fails
    made its last call on a scalar, the first one among its calls, and
    fails with the error that names that scalar's type. *)
Theorem jsonWalk_fails_at_first_scalar (v : Value) :
  (∀ objs, jsonWalk v = Ok objs →
     Forall (λ c, isScalar c = false) (jsonWalkCalls v))
  ∧ (∀ e, jsonWalk v = Err e →
     ∃ before s,
       jsonWalkCalls v = before ++ [s]
       ∧ Forall (λ c, isScalar c = false) before
       ∧ isScalar s = true
       ∧ e = unexpectedStructure s).
Proof.
  set (P := λ c : Value,
    (∀ objs, jsonWalk c = Ok objs →
       Forall (λ c, isScalar c = false) (jsonWalkCalls c))
    ∧ (∀ e, jsonWalk c = Err e →
       ∃ before s,
         jsonWalkCalls c = before ++ [s]
         ∧ Forall (λ c, isScalar c = false) before
         ∧ isScalar s = true
         ∧ e = unexpectedStructure s)).
  assert (∀ vs, Forall P vs → ∀ ret,
    (∀ out, rangeWalk vs ret = Ok out →
       Forall (λ c, isScalar c = false) (rangeCalls vs))
    ∧ (∀ e, rangeWalk vs ret = Err e →
       ∃ before s,
         rangeCalls vs = before ++ [s]
         ∧ Forall (λ c, isScalar c = false) before
         ∧ isScalar s = true
         ∧ e = unexpectedStructure s)) as Hloop.
  { induction 1 as [ | c vs [Hok Herr] _ IH ]; intros ret; cbn.
    - split; [ by constructor | done ].
    - destruct (jsonWalk c) as [ r | e' ] eqn:Hr; cbn.
      + destruct (IH (ret ++ r)) as [IHok IHerr]. split.
        * intros out Hout. apply Forall_app. split; [ by eapply Hok | by eapply IHok ].
        * intros e He. destruct (IHerr e He) as (before & s & Hcalls & Hbefore & Hs & ->).
          exists (jsonWalkCalls c ++ before), s. rewrite Hcalls, app_assoc.
          repeat split; [ | done ]. apply Forall_app. split; [ by eapply Hok | done ].
      + split; [ done | ]. intros e [= <-]. rewrite app_nil_r. by apply Herr. }
  change (P v).
  induction v as [ | b | f | s | l IHl | o IHo ] using Value_nested_ind.
  1-4: split; [ done | ]; intros e [= <-]; eexists [], _; by repeat split.
  - unfold P. rewrite jsonWalk_slice, jsonWalkCalls_slice.
    destruct (Hloop l IHl []) as [Hok Herr]. split.
    + intros objs Hwalk. constructor; [ done | by eapply Hok ].
    + intros e He. destruct (Herr e He) as (before & s & -> & Hbefore & Hs & ->).
      exists (VSlice l :: before), s. repeat split; [ by constructor | done ].
  - unfold P. rewrite jsonWalk_map, jsonWalkCalls_map.
    destruct (hasKindAndAPIVersion o).
    + split; [ intros; by repeat constructor | done ].
    + destruct (Hloop (snd <$> o) (proj2 (Forall_fmap _ _ _) IHo) []) as [Hok Herr]. split.
      * intros objs Hwalk. constructor; [ done | by eapply Hok ].
      * intros e He. destruct (Herr e He) as (before & s & -> & Hbefore & Hs & ->).
        exists (VMap o :: before), s. repeat split; [ by constructor | done ].
Qed.

(** A replica count directly below a mapping that is no descriptor. *)
Lemma jsonWalk_fails_at_first_scalar_witness :
  ∃ before s,
    jsonWalkCalls (VMap [("replicas", VFloat64 (S754_zero false))]) = before ++ [s]
    ∧ Forall (λ c, isScalar c = false) before
    ∧ isScalar s = true
    ∧ errorString "Unexpected object structure: float64" = unexpectedStructure s.
Proof.
  apply (proj2 (jsonWalk_fails_at_first_scalar
                  (VMap [("replicas", VFloat64 (S754_zero false))]))).
  reflexivity.
Defined.

(** X3. Walking what a walk returned gives it back: the descriptors found in
    a document, put in a sequence, are found again, unchanged and in the
    same order. *)
Theorem jsonWalk_idempotent (v : Value) (objs : list Value) :
  jsonWalk v = Ok objs → jsonWalk (VSlice objs) = Ok objs.
Proof.
  intros Hdescr%jsonWalk_returns_descriptors. rewrite jsonWalk_slice.
  rewrite (rangeWalk_all_ok objs ((λ x, [x]) <$> objs)).
  - cbn. f_equal. clear Hdescr. induction objs as [ | x objs IH ]; cbn; [ done | by f_equal ].
  - induction Hdescr as [ | x objs Hx _ IH ]; cbn; constructor; [ | done ].
    by apply jsonWalk_descriptor.
Qed.

Lemma jsonWalk_idempotent_witness :
  let podV := VMap (descriptor "Pod" "v1") in
  let svcV := VMap (descriptor "Service" "v1") in
  jsonWalk (VSlice [podV; svcV]) = Ok [podV; svcV].
Proof.
  intros podV svcV.
  apply (jsonWalk_idempotent (VMap [("a", podV); ("b", VSlice [svcV])]) [podV; svcV]).
  reflexivity.
Defined.

(** X4. Walking a sequence is walking its parts one after the other: the
    walk of two sequences put end to end fails with the error of the first
    part that fails and otherwise returns the two results end to end. *)
Theorem jsonWalk_slice_app (l1 l2 : list Value) :
  jsonWalk (VSlice (l1 ++ l2)) =
    match jsonWalk (VSlice l1) with
    | Err e => Err e
    | Ok r1 =>
        match jsonWalk (VSlice l2) with
        | Err e => Err e
        | Ok r2 => Ok (r1 ++ r2)
        end
    end.
Proof.
  rewrite !jsonWalk_slice, rangeWalk_app.
  destruct (rangeWalk l1 []) as [ r1 | e ]; [ | done ].
  apply rangeWalk_acc.
Qed.

(** X5. A container that cannot be a descriptor is transparent: a sequence
    of one element and a mapping of one key are walked exactly like the
    element or the value they hold. *)
Theorem jsonWalk_singleton (k : string) (v : Value) :
  jsonWalk (VSlice [v]) = jsonWalk v ∧ jsonWalk (VMap [(k, v)]) = jsonWalk v.
Proof.
  split.
  - rewrite jsonWalk_slice. cbn. by destruct (jsonWalk v).
  - rewrite jsonWalk_map.
    assert (hasKindAndAPIVersion [(k, v)] = false) as ->.
    { unfold hasKindAndAPIVersion. cbn.
      destruct (String.eqb k "kind") eqn:Hk; [ | done ].
      apply String.eqb_eq in Hk as ->. cbn. by rewrite andb_false_r. }
    cbn. by destruct (jsonWalk v).
Qed.

Section WalkOrder.

Implicit Types (v : Value) (vs : list Value) (o : list (string * Value)).

Lemma rangeWalk_scalar_fails vs ret s :
  s ∈ vs → isScalar s = true → is_Ok (rangeWalk vs ret) = false.
Proof.
  intros Hin Hs. revert ret.
  induction Hin as [ s vs | s c vs _ IH ]; intros ret; cbn.
  - by destruct s.
  - destruct (jsonWalk c); [ by apply IH | done ].
Qed.

(** A loop that returns has walked every child with success, and returns
    what the children's walks returned, end to end. *)
Lemma rangeWalk_walked vs out :
  rangeWalk vs [] = Ok out ↔
    Forall (λ c, is_Ok (jsonWalk c) = true) vs ∧ out = concat (walked <$> vs).
Proof.
  split.
  - intros (rs & Hrs & ->)%rangeWalk_ok_inv. cbn.
    induction Hrs as [ | c r vs rs Hc _ [IH1 IH2] ]; cbn; [ done | ].
    unfold walked at 1. rewrite Hc. split; [ constructor; [ by rewrite Hc | done ] | by f_equal ].
  - intros [Hok ->].
    rewrite (rangeWalk_all_ok vs (walked <$> vs)); [ done | ].
    induction Hok as [ | c vs Hc _ IH ]; cbn; constructor; [ | done ].
    unfold walked. by destruct (jsonWalk c).
Qed.

Lemma concat_fmap_Permutation {A B} (f : A → list B) (l l' : list A) :
  l ≡ₚ l' → concat (f <$> l) ≡ₚ concat (f <$> l').
Proof.
  induction 1 as [ | x l l' _ IH | x y l | l l' l'' _ IH1 _ IH2 ]; cbn.
  - done.
  - by rewrite IH.
  - rewrite !app_assoc. f_equiv. apply Permutation_app_comm.
  - by etrans.
Qed.

(** With distinct keys, [o[key]] is the value of the one entry for [key]. *)
Lemma index_elem_of o key v :
  NoDup (fst <$> o) → (key, v) ∈ o → index o key = v.
Proof.
  induction o as [ | [k x] o IH ]; cbn; [ by intros _ ?%elem_of_nil | ].
  intros [Hk Hnodup]%NoDup_cons [ [= <- <-] | Hin ]%elem_of_cons.
  - by rewrite String.eqb_refl.
  - destruct (String.eqb k key) eqn:Heq; [ | by apply IH ].
    apply String.eqb_eq in Heq as ->. exfalso. apply Hk.
    apply list_elem_of_fmap. by exists (key, v).
Qed.

Lemma index_absent o key : key ∉ fst <$> o → index o key = VNil.
Proof.
  induction o as [ | [k x] o IH ]; cbn; [ done | ].
  intros [Hne Hnotin]%not_elem_of_cons.
  destruct (String.eqb k key) eqn:Heq; [ | by apply IH ].
  by apply String.eqb_eq in Heq.
Qed.

(** So the lookup does not depend on the order of the entries. *)
Lemma index_Permutation o o' key :
  NoDup (fst <$> o) → o ≡ₚ o' → index o key = index o' key.
Proof.
  intros Hnodup Hperm.
  assert (NoDup (fst <$> o')) as Hnodup' by by rewrite <- Hperm.
  destruct (decide (key ∈ fst <$> o)) as [ Hin | Hnotin ].
  - apply list_elem_of_fmap in Hin as ([k v] & -> & Hin). cbn.
    rewrite (index_elem_of o k v) by done.
    rewrite (index_elem_of o' k v); [ done | done | by rewrite <- Hperm ].
  - rewrite (index_absent o) by done.
    rewrite (index_absent o'); [ done | by rewrite <- Hperm ].
Qed.

End WalkOrder.

(** X6. A mapping that is not a descriptor, or a sequence, with a scalar
    directly inside it makes the walk fail: a mapping with ordinary fields
    but without [kind] or without [apiVersion] is an error, it is not
    skipped. *)
Theorem jsonWalk_scalar_child_fails (v s : Value) (children : list Value) :
  childrenOf v = Some children →
  s ∈ children →
  isScalar s = true →
  is_Ok (jsonWalk v) = false.
Proof.
  intros Hchildren Hin Hs.
  destruct v as [ | | | | l | o ]; try discriminate Hchildren.
  - injection Hchildren as ->. rewrite jsonWalk_slice. by eapply rangeWalk_scalar_fails.
  - cbn in Hchildren. rewrite jsonWalk_map.
    destruct (hasKindAndAPIVersion o); [ done | ].
    injection Hchildren as <-. by eapply rangeWalk_scalar_fails.
Qed.

(** A Pod without [apiVersion]: its [kind] is a bare string for the walk. *)
Lemma jsonWalk_scalar_child_fails_witness :
  is_Ok (jsonWalk (VMap [("kind", VString "Pod"); ("spec", VMap [])])) = false.
Proof.
  apply (jsonWalk_scalar_child_fails
           (VMap [("kind", VString "Pod"); ("spec", VMap [])])
           (VString "Pod") [VString "Pod"; VMap []]).
  - reflexivity.
  - by constructor.
  - reflexivity.
Defined.

(** X7. The order in which a mapping is iterated decides only the order of
    the result: for a mapping with distinct keys that is not a descriptor,
    a walk that returns in one order of iteration returns in every other
    order, and returns the same descriptors, rearranged. *)
Theorem jsonWalk_map_order (o o' : list (string * Value)) (objs : list Value) :
  NoDup (fst <$> o) →
  o ≡ₚ o' →
  hasKindAndAPIVersion o = false →
  jsonWalk (VMap o) = Ok objs →
  ∃ objs', jsonWalk (VMap o') = Ok objs' ∧ objs ≡ₚ objs'.
Proof.
  intros Hnodup Hperm Hguard. rewrite !jsonWalk_map, Hguard.
  assert (hasKindAndAPIVersion o' = false) as ->.
  { unfold hasKindAndAPIVersion in *.
    by rewrite <- !(index_Permutation o o') by done. }
  intros [Hok ->]%rangeWalk_walked.
  exists (concat (walked <$> (snd <$> o'))). split.
  - apply rangeWalk_walked. split; [ | done ]. by rewrite <- Hperm.
  - apply concat_fmap_Permutation. by rewrite Hperm.
Qed.

Lemma jsonWalk_map_order_witness :
  let podV := VMap (descriptor "Pod" "v1") in
  let svcV := VMap (descriptor "Service" "v1") in
  ∃ objs', jsonWalk (VMap [("b", VSlice [svcV]); ("a", podV)]) = Ok objs'
           ∧ [podV; svcV] ≡ₚ objs'.
Proof.
  intros podV svcV.
  apply (jsonWalk_map_order [("a", podV); ("b", VSlice [svcV])]
           [("b", VSlice [svcV]); ("a", podV)] [podV; svcV]).
  - apply (bool_decide_unpack _). vm_compute. reflexivity.
  - apply Permutation_swap.
  - reflexivity.
  - reflexivity.
Defined.

(** * Further properties of the flattener *)

Section FlattenMore.

Implicit Types (h : heap) (ps ret : list ptr) (objs : list runtime_Object).

Lemma rangeObjs_panics_iff objs ret h :
  rangeObjs objs ret h = None ↔ Exists (λ obj, isKnown obj = false) objs.
Proof.
  revert ret h. induction objs as [ | obj objs IH ]; intros ret h.
  - cbn. split; [ done | by intros ?%Exists_nil ].
  - rewrite Exists_cons. destruct obj as [ p | l | ty ]; cbn [rangeObjs isKnown].
    + rewrite IH. split; [ by right | by intros [ ? | ? ] ].
    + rewrite rangeItems_fresh, IH. split; [ by right | by intros [ ? | ? ] ].
    + split; [ by left | done ].
Qed.

(** What a run of the outer loop adds to [ret] and to the store. *)
Lemma rangeObjs_shape objs ret h ps h' :
  rangeObjs objs ret h = Some (ps, h') →
  ∃ new ext,
    ps = ret ++ new ∧ h' = h ++ ext
    ∧ (∀ h0, length new = length (expandLists h0 objs))
    ∧ length ext = length (filter (λ obj, isListObject obj = true) objs).
Proof.
  revert ret h. induction objs as [ | obj objs IH ]; intros ret h.
  - intros [= <- <-]. exists [], []. by rewrite !app_nil_r.
  - destruct obj as [ p | l | ty ]; cbn [rangeObjs]; [ | | done ].
    + intros (new & ext & -> & -> & Hnew & Hext)%IH.
      exists (p :: new), ext. rewrite <- app_assoc. repeat split; [ | done ].
      intros h0. unfold expandLists in *. cbn. by rewrite (Hnew h0).
    + rewrite rangeItems_fresh.
      intros (new & ext & -> & -> & Hnew & Hext)%IH.
      eexists (replicate (length (Items l)) (length h) ++ new), (_ :: ext).
      rewrite <- !app_assoc. repeat split.
      * intros h0. unfold expandLists in *. cbn.
        by rewrite !length_app, length_replicate, (Hnew h0).
      * rewrite filter_cons_True by done. cbn. by rewrite Hext.
Qed.

Lemma concat_inj_lengths {A} (ls ls' : list (list A)) :
  Forall2 (λ l l', length l = length l') ls ls' →
  concat ls = concat ls' → ls = ls'.
Proof.
  induction 1 as [ | l l' ls ls' Hlen _ IH ]; cbn; [ done | ].
  intros [-> Hrest]%app_inj_1; [ | done ]. by rewrite IH.
Qed.

Lemma flattened_members_inv h obj :
  flattened h obj = members h obj → itemsAgree obj.
Proof.
  intros Heq l -> x Hx. cbn in Heq. rewrite <- Heq in Hx.
  apply elem_of_replicate in Hx as [-> Hlen].
  destruct (last (Items l)) eqn:Hlast; [ done | ].
  apply last_None in Hlast. by rewrite Hlast in Hlen.
Qed.

End FlattenMore.



(** X9. When it returns, [FlattenToV1] returns as many pointers as the
    documented expansion has elements: one for every plain object and one
    for every item of every list. *)
Theorem FlattenToV1_length (objs : list runtime_Object) (h : heap)
    (ps : list ptr) (h' : heap) :
  FlattenToV1 objs h = Some (ps, h') →
  length ps = length (expandLists h objs).
Proof.
  intros (new & ext & -> & _ & Hnew & _)%rangeObjs_shape. apply Hnew.
Qed.

Lemma FlattenToV1_length_witness :
  length [0; 0] = length (expandLists [] [PtrUnstructuredList (listOf [pod "a"; pod "b"])]).
Proof.
  apply (FlattenToV1_length [PtrUnstructuredList (listOf [pod "a"; pod "b"])] []
           [0; 0] [pod "b"]).
  reflexivity.
Defined.

(** X10. [FlattenToV1] does not write to any record that existed before the
    call: every cell of the store keeps its content, and the store grows by
    exactly one cell, the loop variable, for every list among the objects. *)
Theorem FlattenToV1_keeps_store (objs : list runtime_Object) (h : heap)
    (ps : list ptr) (h' : heap) :
  FlattenToV1 objs h = Some (ps, h') →
  (∀ p, p < length h → h' !! p = h !! p)
  ∧ length h' = length h + length (filter (λ obj, isListObject obj = true) objs).
Proof.
  intros (new & ext & _ & -> & _ & Hext)%rangeObjs_shape. split.
  - intros p Hp. by apply lookup_app_l.
  - by rewrite length_app, Hext.
Qed.

Lemma FlattenToV1_keeps_store_witness :
  (∀ p, p < length [pod "x"] → [pod "x"; pod "b"] !! p = [pod "x"] !! p)
  ∧ length [pod "x"; pod "b"]
    = length [pod "x"]
      + length (filter (λ obj, isListObject obj = true)
                  [PtrUnstructured 0; PtrUnstructuredList (listOf [pod "a"; pod "b"])]).
Proof.
  apply (FlattenToV1_keeps_store
           [PtrUnstructured 0; PtrUnstructuredList (listOf [pod "a"; pod "b"])]
           [pod "x"] [0; 1; 1] [pod "x"; pod "b"]).
  reflexivity.
Defined.

(** X11. Read through the returned pointers, the output of [FlattenToV1] is
    the documented expansion exactly when no list holds two different
    items: with valid pointers in the input, the two agree if and only if
    the items of every list are all the same record. *)
Theorem FlattenToV1_meets_description_iff (objs : list runtime_Object) (h : heap)
    (ps : list ptr) (h' : heap) :
  Forall (validIn h) objs →
  FlattenToV1 objs h = Some (ps, h') →
  deref h' ps = expandLists h objs ↔ Forall itemsAgree objs.
Proof.
  intros Hvalid Hrun.
  assert (Forall (λ obj, isKnown obj = true) objs) as Hknown.
  { apply Forall_forall. intros obj Hobj.
    destruct (isKnown obj) eqn:Hk; [ done | ].
    assert (FlattenToV1 objs h = None) as Hnone.
    { apply rangeObjs_panics_iff, Exists_exists. eauto. }
    by rewrite Hnone in Hrun. }
  destruct (FlattenToV1_deref objs h Hvalid Hknown) as (ps0 & ext & Hrun0 & Hderef).
  rewrite Hrun in Hrun0. injection Hrun0 as <- ->. rewrite Hderef.
  unfold expandLists. split.
  - intros Heq%concat_inj_lengths.
    + apply Forall_forall. intros obj Hobj.
      apply (flattened_members_inv h).
      apply list_elem_of_lookup_1 in Hobj as [i Hi].
      apply (f_equal (λ ls, ls !! i)) in Heq.
      rewrite !list_lookup_fmap, Hi in Heq. by injection Heq.
    + apply Forall2_fmap, Forall_Forall2_diag, Forall_forall.
      intros [ p | l | ty ] _; cbn; [ done | by rewrite length_replicate | done ].
  - intros Hagree. f_equal. apply Forall_fmap_ext_1.
    eapply Forall_impl; [ exact Hagree | ].
    intros obj Hobj. by apply flattened_members.
Qed.

(** A list of one Pod next to a plain object. *)
Lemma FlattenToV1_meets_description_iff_witness :
  let objs := [PtrUnstructured 0; PtrUnstructuredList (listOf [pod "a"])] in
  deref [pod "x"; pod "a"] [0; 1] = expandLists [pod "x"] objs ↔ Forall itemsAgree objs.
Proof.
  intros objs.
  apply (FlattenToV1_meets_description_iff objs [pod "x"] [0; 1] [pod "x"; pod "a"]).
  - repeat constructor.
  - reflexivity.
Defined.

(** * Further properties of the resolver *)

(** X14. The resolver fails in two ways only: with the error of [os.Getwd],
    or, the working directory known, with [errorMainNotFound] when [os.Stat]
    reports both candidates as not existing. *)
Theorem resolve_failure_cases (os : OS) (name : string) (err : error) :
  resolve os name = Err err →
  wd os = Err err
  ∨ (err = errorMainNotFound
     ∧ is_Ok (wd os) = true
     ∧ os_IsNotExist (stat os (candidate name "main.libsonnet")) = true
     ∧ os_IsNotExist (stat os (candidate name "main.jsonnet")) = true).
Proof.
  unfold resolve. destruct (wd os) as [ pwd | e ] eqn:Hwd.
  - rewrite (getJPathsAndFile_unfold os name pwd Hwd).
    destruct (os_IsNotExist (stat os (candidate name "main.libsonnet"))); [ | done ].
    destruct (os_IsNotExist (stat os (candidate name "main.jsonnet"))); [ | done ].
    cbn. intros [= <-]. by right.
  - rewrite (getJPathsAndFile_no_wd os name e Hwd). cbn. intros [= <-]. by left.
Qed.

Lemma resolve_failure_cases_witness :
  wd (osWith []) = Err errorMainNotFound
  ∨ (errorMainNotFound = errorMainNotFound
     ∧ is_Ok (wd (osWith [])) = true
     ∧ os_IsNotExist (stat (osWith []) (candidate "prod" "main.libsonnet")) = true
     ∧ os_IsNotExist (stat (osWith []) (candidate "prod" "main.jsonnet")) = true).
Proof.
  apply (resolve_failure_cases (osWith []) "prod" errorMainNotFound). reflexivity.
Defined.

(** X15. The entry file of a successful resolution is one of the two
    candidates, and one that [os.Stat] did not report as not existing;
    [main.jsonnet] is returned only when [main.libsonnet] was reported as
    not existing. *)
Theorem resolve_file_is_candidate (os : OS) (name : string)
    (paths : list string) (file : string) :
  resolve os name = Ok (paths, file) →
  (file = candidate name "main.libsonnet"
   ∧ os_IsNotExist (stat os file) = false)
  ∨ (file = candidate name "main.jsonnet"
     ∧ os_IsNotExist (stat os (candidate name "main.libsonnet")) = true
     ∧ os_IsNotExist (stat os file) = false).
Proof.
  unfold resolve. destruct (wd os) as [ pwd | e ] eqn:Hwd.
  - rewrite (getJPathsAndFile_unfold os name pwd Hwd).
    destruct (os_IsNotExist (stat os (candidate name "main.libsonnet"))) eqn:Hlib.
    + destruct (os_IsNotExist (stat os (candidate name "main.jsonnet"))) eqn:Hjsn; [ done | ].
      cbn. intros [= <- <-]. by right.
    + cbn. intros [= <- <-]. by left.
  - by rewrite (getJPathsAndFile_no_wd os name e Hwd).
Qed.

Lemma resolve_file_is_candidate_witness :
  let os := osWith ["environments/prod/main.jsonnet"] in
  let file := "environments/prod/main.jsonnet" in
  (file = candidate "prod" "main.libsonnet"
   ∧ os_IsNotExist (stat os file) = false)
  ∨ (file = candidate "prod" "main.jsonnet"
     ∧ os_IsNotExist (stat os (candidate "prod" "main.libsonnet")) = true
     ∧ os_IsNotExist (stat os file) = false).
Proof.
  intros os file.
  apply (resolve_file_is_candidate os "prod" ["/w/lib"; "/w/vendor"; "prod/.metadata"] file).
  reflexivity.
Defined.

(** X16. The resolver makes one call when [os.Getwd] fails, and otherwise
    asks [os.Stat] about [main.libsonnet] and, only if that is reported as
    not existing, about [main.jsonnet]: it never looks at any other name,
    never asks twice, and never reads a file. *)
Theorem resolve_calls_made (os : OS) (name : string) :
  resolveCalls os name =
    if is_Ok (wd os) then
      if os_IsNotExist (stat os (candidate name "main.libsonnet"))
      then [CallGetwd; CallStat (candidate name "main.libsonnet");
            CallStat (candidate name "main.jsonnet")]
      else [CallGetwd; CallStat (candidate name "main.libsonnet")]
    else [CallGetwd].
Proof.
  unfold resolveCalls. destruct (wd os) as [ pwd | e ] eqn:Hwd; cbn [is_Ok].
  - rewrite (getJPathsAndFile_unfold os name pwd Hwd).
    destruct (os_IsNotExist (stat os (candidate name "main.libsonnet"))); [ | done ].
    by destruct (os_IsNotExist (stat os (candidate name "main.jsonnet"))).
  - by rewrite (getJPathsAndFile_no_wd os name e Hwd).
Qed.

(** X17. The outcome depends on nothing but the working directory and what
    [os.Stat] answers for the two candidates: two systems that agree on
    these give the same result, whatever else differs between them. *)
Theorem resolve_looks_at_candidates_only (os1 os2 : OS) (name : string) :
  wd os1 = wd os2 →
  stat os1 (candidate name "main.libsonnet") = stat os2 (candidate name "main.libsonnet") →
  stat os1 (candidate name "main.jsonnet") = stat os2 (candidate name "main.jsonnet") →
  resolve os1 name = resolve os2 name.
Proof.
  intros Hwd Hlib Hjsn. unfold resolve.
  destruct (wd os2) as [ pwd | e ] eqn:Hwd2.
  - by rewrite (getJPathsAndFile_unfold os1 name pwd Hwd),
               (getJPathsAndFile_unfold os2 name pwd Hwd2), Hlib, Hjsn.
  - by rewrite (getJPathsAndFile_no_wd os1 name e Hwd),
               (getJPathsAndFile_no_wd os2 name e Hwd2).
Qed.

(** Another file appears in the tree: the resolution of [prod] is the same. *)
Lemma resolve_looks_at_candidates_only_witness :
  resolve (osWith ["environments/prod/main.jsonnet"]) "prod"
  = resolve (osWith ["environments/prod/main.jsonnet"; "environments/dev/main.libsonnet"]) "prod".
Proof.
  apply (resolve_looks_at_candidates_only
           (osWith ["environments/prod/main.jsonnet"])
           (osWith ["environments/prod/main.jsonnet"; "environments/dev/main.libsonnet"])
           "prod"); reflexivity.
Defined.

(** * Further properties of [parseYaml] *)

(** X18. [parseYaml] returns nothing the decoder did not give: a returned
    list is exactly the run of documents at the front of the decoder's
    results, which then end or go on with [io.EOF]; an error returned is a
    result of the decoder, other than [io.EOF], that comes right after a run
    of documents. *)
Theorem parseYaml_result_from_decoder
    (NewYAMLToJSONDecoder : string → YAMLToJSONDecoder) (data : string) :
  (∀ docs, parseYaml NewYAMLToJSONDecoder data = Ok docs →
     ∃ rest, NewYAMLToJSONDecoder data = (Ok <$> docs) ++ rest
             ∧ (rest = [] ∨ ∃ rest', rest = Err io_EOF :: rest'))
  ∧ (∀ err, parseYaml NewYAMLToJSONDecoder data = Err err →
     err ≠ io_EOF
     ∧ ∃ docs rest, NewYAMLToJSONDecoder data = (Ok <$> docs) ++ Err err :: rest).
Proof.
  unfold parseYaml. generalize (NewYAMLToJSONDecoder data). intros d.
  assert (∀ ret,
    (∀ out, parseYamlLoop d ret = Ok out →
       ∃ docs rest, out = ret ++ docs ∧ d = (Ok <$> docs) ++ rest
                    ∧ (rest = [] ∨ ∃ rest', rest = Err io_EOF :: rest'))
    ∧ (∀ err, parseYamlLoop d ret = Err err →
       err ≠ io_EOF
       ∧ ∃ docs rest, d = (Ok <$> docs) ++ Err err :: rest)) as Hloop.
  { induction d as [ | [ doc | e ] d IH ]; intros ret; cbn.
    - split; [ | done ]. intros out [= <-]. exists [], [].
      rewrite app_nil_r. repeat split. by left.
    - destruct (IH (ret ++ [doc])) as [IHok IHerr]. split.
      + intros out (docs & rest & -> & -> & Hrest)%IHok.
        exists (doc :: docs), rest. by rewrite <- app_assoc.
      + intros err (Hne & docs & rest & ->)%IHerr. split; [ done | ].
        by exists (doc :: docs), rest.
    - destruct e.
      5: { split; [ | done ]. intros out [= <-]. exists [], (Err io_EOF :: d).
           rewrite app_nil_r. repeat split. right. by eexists. }
      all: split; [ done | ]; intros err [= <-]; split; [ done | ]; by exists [], d. }
  destruct (Hloop []) as [Hok Herr]. split.
  - intros docs (docs' & rest & -> & -> & Hrest)%Hok. by exists rest.
  - done.
Qed.

Lemma parseYaml_result_from_decoder_witness :
  ∃ rest, sampleDecoder twoDocuments = (Ok <$> [docA; docB]) ++ rest
          ∧ (rest = [] ∨ ∃ rest', rest = Err io_EOF :: rest').
Proof.
  apply (proj1 (parseYaml_result_from_decoder sampleDecoder twoDocuments)).
  reflexivity.
Defined.

(** X19. The native function panics exactly when its first argument is
    missing or is not a string.  When it returns a value, the value is a
    sequence, also for a text with a single document. *)
Theorem parseYamlFunc_panics_iff
    (NewYAMLToJSONDecoder : string → YAMLToJSONDecoder) (dataString : list Value) :
  (parseYamlFunc NewYAMLToJSONDecoder dataString = None
   ↔ ∀ data, head dataString ≠ Some (VString data))
  ∧ (∀ v, parseYamlFunc NewYAMLToJSONDecoder dataString = Some (Ok v) →
     ∃ data docs,
       head dataString = Some (VString data)
       ∧ parseYaml NewYAMLToJSONDecoder data = Ok docs
       ∧ v = VSlice docs).
Proof.
  destruct dataString as [ | [ | b | f | data | l | o ] rest ]; cbn;
    try (split; [ split; [ done | done ] | done ]).
  split.
  - split; [ done | ]. intros H. by destruct (H data).
  - intros v. destruct (parseYaml NewYAMLToJSONDecoder data) as [ docs | e ] eqn:Hp; [ | done ].
    intros [= <-]. by exists data, docs.
Qed.

(** Called with a number, and called with the two-document text. *)
Lemma parseYamlFunc_panics_iff_witness :
  parseYamlFunc sampleDecoder [VFloat64 float64_1] = None
  ∧ ∃ data docs,
      head [VString twoDocuments] = Some (VString data)
      ∧ parseYaml sampleDecoder data = Ok docs
      ∧ VSlice [docA; docB] = VSlice docs.
Proof.
  split.
  - apply (proj2 (proj1 (parseYamlFunc_panics_iff sampleDecoder [VFloat64 float64_1]))).
    intros data. discriminate.
  - apply (proj2 (parseYamlFunc_panics_iff sampleDecoder [VString twoDocuments])).
    reflexivity.
Defined.
